(** * Beacon: a hybrid fuzzy-matching search engine

    Shallow embedding of [beacon.go] and proofs of its specification.

    - Go [string] is a byte sequence: [string] (a list of 8-bit [ascii]);
      [len] is [String.length], [s[i]] is [String.get].
    - Go [float64] is IEEE-754 binary64: Rocq's primitive [float], every
      operation rounded on its own.
    - Go [int] holds lengths and counters here and never wraps: [nat] for
      lengths, indexes and distances, [Z] where the value may be negative
      ([TopN], [TextLength]).
    - [map[string]bool] is only ever filled with [true]: a [gset string].
    - The methods of [*ImprovedSearcher] run in a state monad over the
      searcher. *)

From Stdlib Require Import ZArith Floats Uint63 Lia Ascii String.
From stdpp Require Import base gmap sets list strings sorting pretty.

Set Warnings "-inexact-float,-clear-no-such-hyp".

(** ** float64 *)

Module F64.

(** [float64(n)] for an [int] n with |n| < 2^63. *)
Definition of_int (z : Z) : float :=
  if (z <? 0)%Z then (- PrimFloat.of_uint63 (Uint63.of_Z (- z)))%float
  else PrimFloat.of_uint63 (Uint63.of_Z z).

(** [a > b] and [a >= b] on float64. *)
Definition gt (a b : float) : bool := (b <? a)%float.
Definition ge (a b : float) : bool := (b <=? a)%float.

(** [math.Min]. *)
Definition Min (x y : float) : float :=
  if (x =? neg_infinity)%float || (y =? neg_infinity)%float then neg_infinity
  else if is_nan x || is_nan y then nan
  else if (x =? 0)%float && (x =? y)%float then (if get_sign x then x else y)
  else if (x <? y)%float then x else y.

End F64.

(** ** The Go libraries the engine calls *)

(** A [rune] is a Unicode code point. *)
Definition rune := Z.

(** [rune(b)] for a byte [b]. *)
Definition rune_of_byte (b : ascii) : rune := Z.of_N (N_of_ascii b).

(** The text primitives of [strings], [unicode], [fmt] and [x/text] that
    the engine calls and does not implement. *)
Class GoText := {
  (** [transform.String(transform.Chain(norm.NFC), s)] *)
  NFC : string → string;
  (** [strings.ToLower] *)
  ToLower : string → string;
  (** [strings.TrimSpace] *)
  TrimSpace : string → string;
  (** [strings.Fields] *)
  Fields : string → list string;
  (** [strings.FieldsFunc] *)
  FieldsFunc : string → (rune → bool) → list string;
  (** [unicode.IsSpace] *)
  IsSpace : rune → bool;
  (** [unicode.IsUpper] *)
  IsUpper : rune → bool;
  (** [string(rs)] for a [[]rune] *)
  string_of_runes : list rune → string;
  (** [fmt]'s [%.2f] *)
  format_f2 : float → string
}.

(** [sort.Slice]: it permutes the slice, and the result is ordered when
    [less] is a strict weak order on the elements; ties land in any order. *)
Definition strict_weak_on {A} (less : A → A → bool) (l : list A) : Prop :=
  (∀ x, x ∈ l → less x x = false) ∧
  (∀ x y z, x ∈ l → y ∈ l → z ∈ l →
     less x y = true → less y z = true → less x z = true) ∧
  (∀ x y z, x ∈ l → y ∈ l → z ∈ l →
     less x y = false → less y z = false → less x z = false).

Class GoSort := {
  sort_Slice : ∀ A : Type, list A → (A → A → bool) → list A;
  sort_Slice_perm : ∀ A (l : list A) less, sort_Slice A l less ≡ₚ l;
  sort_Slice_sorted : ∀ A (l : list A) less,
    strict_weak_on less l →
    StronglySorted (λ a b, less b a = false) (sort_Slice A l less)
}.
Arguments sort_Slice {_ _} _ _.

(** *** The libraries on ASCII text *)

Module AsciiText.

Definition code (c : ascii) : N := N_of_ascii c.

(** ['\t'], ['\n'], ['\v'], ['\f'], ['\r'], [' '], U+0085, U+00A0:
    [unicode.IsSpace] on Latin-1. *)
Definition is_space (r : rune) : bool :=
  ((9 <=? r) && (r <=? 13) || (r =? 32) || (r =? 133) || (r =? 160))%Z.

(** [unicode.IsUpper] on Latin-1: A-Z, U+00C0-U+00D6, U+00D8-U+00DE. *)
Definition is_upper (r : rune) : bool :=
  ((65 <=? r) && (r <=? 90) || (192 <=? r) && (r <=? 214)
   || (216 <=? r) && (r <=? 222))%Z.

Definition is_space_byte (c : ascii) : bool :=
  let n := code c in ((9 <=? n) && (n <=? 13) || (n =? 32))%N.

Definition lower_byte (c : ascii) : ascii :=
  let n := code c in
  if ((65 <=? n) && (n <=? 90))%N then ascii_of_N (n + 32) else c.

Fixpoint to_lower (s : string) : string :=
  match s with
  | EmptyString => EmptyString
  | String c s' => String (lower_byte c) (to_lower s')
  end.

(** Fields of [s] between separator bytes; [cur] is the field being
    read, last byte first. *)
Fixpoint split_on (sep : ascii → bool) (s : string) (cur : list ascii)
  : list string :=
  match s with
  | EmptyString =>
      match cur with
      | [] => []
      | _ => [string_of_list_ascii (rev cur)]
      end
  | String c s' =>
      if sep c then
        match cur with
        | [] => split_on sep s' []
        | _ => string_of_list_ascii (rev cur) :: split_on sep s' []
        end
      else split_on sep s' (c :: cur)
  end.

Fixpoint drop_space (l : list ascii) : list ascii :=
  match l with
  | c :: l' => if is_space_byte c then drop_space l' else l
  | [] => []
  end.

Definition trim_space (s : string) : string :=
  string_of_list_ascii
    (rev (drop_space (rev (drop_space (list_ascii_of_string s))))).

(** UTF-8 of a code point below U+0800. *)
Definition utf8 (r : rune) : list ascii :=
  if (r <? 128)%Z then [ascii_of_N (Z.to_N r)]
  else [ascii_of_N (Z.to_N (192 + r / 64)); ascii_of_N (Z.to_N (128 + r mod 64))].

Definition of_runes (rs : list rune) : string :=
  string_of_list_ascii (concat (map utf8 rs)).

(** [n] written with at least two decimal digits. *)
Definition two_digits (n : Z) : string :=
  (if (n <? 10)%Z then "0" else "") +:+ pretty n.

(** [m * 2^e * 100] rounded to the nearest integer, ties to even. *)
Definition hundredths (m : positive) (e : Z) : Z :=
  let n := (Z.pos m * 100)%Z in
  if (0 <=? e)%Z then (n * 2 ^ e)%Z
  else
    let d := (2 ^ (- e))%Z in
    let q := (n / d)%Z in
    let r := (n mod d)%Z in
    match (2 * r ?= d)%Z with
    | Lt => q
    | Gt => (q + 1)%Z
    | Eq => if Z.even q then q else (q + 1)%Z
    end.

Definition fmt_f2 (x : float) : string :=
  match Prim2SF x with
  | S754_nan => "NaN"
  | S754_infinity s => if s then "-Inf" else "+Inf"
  | S754_zero s => (if s then "-" else "") +:+ "0.00"
  | S754_finite s m e =>
      let h := hundredths m e in
      (if s then "-" else "") +:+ pretty (h / 100)%Z +:+ "." +:+
      two_digits (h mod 100)%Z
  end.

(** Exact on ASCII text, where NFC is the identity and every rune is
    one byte. *)
#[export] Instance ascii_text : GoText := {|
  NFC s := s;
  ToLower := to_lower;
  TrimSpace := trim_space;
  Fields s := split_on is_space_byte s [];
  FieldsFunc s f := split_on (λ c, f (rune_of_byte c)) s [];
  IsSpace := is_space;
  IsUpper := is_upper;
  string_of_runes := of_runes;
  format_f2 := fmt_f2
|}.

End AsciiText.

(** ** The package *)

Module beacon.

(** The zero value of float64. *)
#[export] Instance float_inhabited : Inhabited float := populate 0%float.

(** *** Interfaces and data *)

Class Searchable (T : Type) := {
  GetSearchText : T → string;
  GetSearchFields : T → gmap string string
}.

(** A [Filter] applied to items of type [T]. *)
Record Filter (T : Type) := {
  Matches : T → bool;
  Description : string
}.
Arguments Matches {T} _ _.
Arguments Description {T} _.

Module SearchRequest.
Record t (T : Type) := {
  Query : string;
  Filters : option (Filter T);
  TopN : option Z;
  Debug : option bool
}.
Arguments Query {T} _.
Arguments Filters {T} _.
Arguments TopN {T} _.
Arguments Debug {T} _.
End SearchRequest.

Record ScoreComponents := {
  ExactMatch : float;
  PrefixMatch : float;
  WordMatch : float;
  SubstringMatch : float;
  TrigramSimilarity : float;
  BigramSimilarity : float;
  AcronymMatch : float;
  LevenshteinSim : float;
  FinalScore : float
}.

Module DebugInfo.
Record t := {
  QueryNormalized : string;
  ScoreComponents : option beacon.ScoreComponents;
  FilteredCandidates : nat;
  TotalCandidates : nat
}.
End DebugInfo.

(** [Item] is [None] for Go's nil pointer. *)
Module SearchResponse.
Record t (T : Type) := {
  Item : option T;
  Similarity : float;
  Message : string;
  Error : string;
  Debug : option DebugInfo.t
}.
Arguments Item {T} _.
Arguments Similarity {T} _.
Arguments Message {T} _.
Arguments Error {T} _.
Arguments Debug {T} _.
End SearchResponse.

Module MultiSearchResponse.
Record t (T : Type) := {
  Results : list (SearchResponse.t T);
  Query : string;
  TotalFound : nat;
  Filters : option (Filter T);
  Message : string
}.
Arguments Results {T} _.
Arguments Query {T} _.
Arguments TotalFound {T} _.
Arguments Filters {T} _.
Arguments Message {T} _.
End MultiSearchResponse.

(** What [Search] returns in its [interface{}]; its [error] is always nil. *)
Inductive Outcome (T : Type) :=
  | Single (r : SearchResponse.t T)
  | Multi (m : MultiSearchResponse.t T).
Arguments Single {T} _.
Arguments Multi {T} _.

Module SearchIndex.
Record t (T : Type) := {
  Item : T;
  NormalizedText : string;
  LowercaseText : string;
  Words : list string;
  WordSet : gset string;
  Trigrams : gset string;
  Bigrams : gset string;
  FirstLetters : string;
  Acronym : string;
  TextLength : Z
}.
Arguments Item {T} _.
Arguments NormalizedText {T} _.
Arguments LowercaseText {T} _.
Arguments Words {T} _.
Arguments WordSet {T} _.
Arguments Trigrams {T} _.
Arguments Bigrams {T} _.
Arguments FirstLetters {T} _.
Arguments Acronym {T} _.
Arguments TextLength {T} _.
End SearchIndex.

Record ImprovedSearcher (T : Type) := {
  items : list T;
  searchIndex : list (SearchIndex.t T);
  debugMode : bool;
  minSimilarity : float
}.
Arguments items {T} _.
Arguments searchIndex {T} _.
Arguments debugMode {T} _.
Arguments minSimilarity {T} _.

(** The element type of [results] in [Search]. *)
Record scoredResult (T : Type) := {
  index : SearchIndex.t T;
  score : float;
  components : ScoreComponents
}.
Arguments index {T} _.
Arguments score {T} _.
Arguments components {T} _.

(** *** Methods on the searcher: a state monad *)

Definition M (S A : Type) : Type := S → A * S.

#[export] Instance M_ret S : MRet (M S) := λ A (a : A) s, (a, s).
#[export] Instance M_bind S : MBind (M S) :=
  λ A B (k : A → M S B) (m : M S A) s, let '(a, s') := m s in k a s'.

(** Read a field of the receiver. *)
Definition gets {S A} (f : S → A) : M S A := λ s, (f s, s).
(** Assign to the receiver. *)
Definition modify {S} (f : S → S) : M S unit := λ s, (tt, f s).

(** [for _, x := range l { acc = body(acc, x) }] *)
Fixpoint foldM {S A B} (body : B → A → M S B) (acc : B) (l : list A) : M S B :=
  match l with
  | [] => mret acc
  | x :: l' => acc' ← body acc x; foldM body acc' l'
  end.

(** *** Helper functions *)

Definition len (s : string) : nat := String.length s.

(** [strings.HasPrefix] *)
Definition HasPrefix (s prefix : string) : bool := String.prefix prefix s.

(** [strings.Contains] *)
Fixpoint Contains (s substr : string) : bool :=
  String.prefix substr s ||
  match s with
  | EmptyString => false
  | String _ s' => Contains s' substr
  end.

(** [strings.Repeat] *)
Fixpoint Repeat (s : string) (count : nat) : string :=
  match count with
  | O => ""
  | S k => s +:+ Repeat s k
  end.

(** [strings.Join] *)
Definition Join (elems : list string) (sep : string) : string :=
  String.concat sep elems.

Definition min (values : list nat) : nat :=
  match values with
  | [] => 0
  | v0 :: rest => foldl (λ minVal v, if v <? minVal then v else minVal) v0 rest
  end.

Definition max (a b : Z) : Z := if (a >? b)%Z then a else b.

Section Utilities.
Context `{GoText}.

Definition normalizeText (text : string) : string :=
  let normalized := NFC text in
  Join (Fields normalized) " ".

(** The separators are white space, ['-'] (45), [','] (44) and ['.'] (46). *)
Definition extractWords (text : string) : list string :=
  let words := FieldsFunc text (λ r,
    IsSpace r || (r =? 45)%Z || (r =? 44)%Z || (r =? 46)%Z) in
  filter (λ word, word ≠ "") words.

Definition createWordSet (words : list string) : gset string :=
  foldl (λ set word, {[word]} ∪ set) ∅ words.

(** [n] is 2 or 3 at every call; [strings.Repeat] panics when [n] is 0. *)
Definition createCharNgrams (text : string) (n : nat) : gset string :=
  if len text <? n then {[text]}
  else
    let padding := Repeat "#" (n - 1) in
    let padded := padding +:+ text +:+ padding in
    foldl (λ ngrams i, {[substring i n padded]} ∪ ngrams) ∅
          (seq 0 (len padded - n + 1)).

Definition extractFirstLetters (words : list string) : string :=
  string_of_runes
    (foldl (λ letters word,
       match word with
       | String c _ => letters ++ [rune_of_byte c]
       | EmptyString => letters
       end) [] words).

Definition extractAcronym (text : string) : string :=
  let words := Fields text in
  let acronym :=
    foldl (λ acronym word,
      let lower := ToLower word in
      (* Skip common articles and prepositions *)
      if String.eqb lower "de" || String.eqb lower "del"
         || String.eqb lower "la" || String.eqb lower "el"
         || String.eqb lower "los" || String.eqb lower "las"
         || String.eqb lower "y" || String.eqb lower "e"
         || String.eqb lower "of" || String.eqb lower "the"
         || String.eqb lower "and" || String.eqb lower "or"
      then acronym
      else
        (* First character if it is upper-case in the original *)
        match word with
        | String c _ =>
            if IsUpper (rune_of_byte c) then acronym ++ [rune_of_byte c]
            else acronym
        | EmptyString => acronym
        end) [] words in
  ToLower (string_of_runes acronym).

End Utilities.

(** The loop over [set1] counts the members that [set2] holds. *)
Definition calculateJaccardSimilarity (set1 set2 : gset string) : float :=
  if (size set1 =? 0) && (size set2 =? 0) then 1.0%float
  else if (size set1 =? 0) || (size set2 =? 0) then 0.0%float
  else
    let intersection :=
      set_fold (λ item n, if decide (item ∈ set2) then n + 1 else n) 0 set1 in
    let union := size set1 + size set2 - intersection in
    if union =? 0 then 0.0%float
    else (F64.of_int (Z.of_nat intersection) / F64.of_int (Z.of_nat union))%float.

(** [dist[i][j]] and [dist[i][j] = v] on the distance matrix. *)
Definition cell (dist : list (list nat)) (i j : nat) : nat := (dist !!! i) !!! j.
Definition set_cell (dist : list (list nat)) (i j v : nat) : list (list nat) :=
  <[i := <[j := v]> (dist !!! i)]> dist.

Definition calculateLevenshteinDistance (s1 s2 : string) : nat :=
  if (s1 =? s2)%string then 0
  else
    let len1 := len s1 in
    let len2 := len s2 in
    if len1 =? 0 then len2
    else if len2 =? 0 then len1
    else
      let dist := replicate (len1 + 1) [] in
      let dist :=
        foldl (λ dist i, <[i := <[0 := i]> (replicate (len2 + 1) 0)]> dist)
              dist (seq 0 (len1 + 1)) in
      let dist := foldl (λ dist j, set_cell dist 0 j j) dist (seq 1 len2) in
      let dist :=
        foldl (λ dist i,
          foldl (λ dist j,
            let cost :=
              if decide (String.get (i - 1) s1 = String.get (j - 1) s2)
              then 0 else 1 in
            set_cell dist i j
              (min [cell dist (i - 1) j + 1;
                    cell dist i (j - 1) + 1;
                    cell dist (i - 1) (j - 1) + cost]))
            dist (seq 1 len2))
          dist (seq 1 len1) in
      cell dist len1 len2.

(** *** The engine *)

(** The [weights] table of [calculateScore]; a missing key reads as 0. *)
Definition weights : gmap string float :=
  list_to_map [("exact", 1.0); ("prefix", 0.9); ("word", 0.85);
               ("substring", 0.75); ("trigram", 0.6); ("bigram", 0.4);
               ("acronym", 0.7); ("levenshtein", 0.5)]%float.

(** [if c > 0 { weightedSum += c * w; totalWeight += w }] on the pair
    [(weightedSum, totalWeight)]. *)
Definition add_component (c w : float) (acc : float * float) : float * float :=
  if F64.gt c 0 then ((acc.1 + c * w)%float, (acc.2 + w)%float) else acc.

Section Engine.
Context `{GoText} `{GoSort} {T : Type} `{Searchable T}.

Definition NewImprovedSearcher (items : list T) (minSimilarity : float)
    (debugMode : bool) : ImprovedSearcher T :=
  let searchIndex :=
    map (λ item,
      let searchText := GetSearchText item in
      let normalizedText := normalizeText searchText in
      let lowercaseText := ToLower normalizedText in
      let words := extractWords lowercaseText in
      {| SearchIndex.Item := item;
         SearchIndex.NormalizedText := normalizedText;
         SearchIndex.LowercaseText := lowercaseText;
         SearchIndex.Words := words;
         SearchIndex.WordSet := createWordSet words;
         SearchIndex.Trigrams := createCharNgrams lowercaseText 3;
         SearchIndex.Bigrams := createCharNgrams lowercaseText 2;
         SearchIndex.FirstLetters := extractFirstLetters words;
         SearchIndex.Acronym := extractAcronym searchText;
         SearchIndex.TextLength := Z.of_nat (len lowercaseText) |}) items in
  {| items := items;
     searchIndex := searchIndex;
     debugMode := debugMode;
     minSimilarity := minSimilarity |}.

(** The receiver is not used by [calculateScore]. *)
Definition calculateScore (idx : SearchIndex.t T) (queryLower : string)
    (queryWords : list string) (queryWordSet queryTrigrams queryBigrams : gset string)
    (queryAcronym : string) : ScoreComponents :=
  (* 1. Exact match *)
  let ExactMatch :=
    if (SearchIndex.LowercaseText idx =? queryLower)%string then 1.0%float
    else 0%float in
  (* 2. Prefix match *)
  let PrefixMatch :=
    if HasPrefix (SearchIndex.LowercaseText idx) queryLower then 0.9%float
    else if (3 <=? len queryLower)
            && HasPrefix (SearchIndex.LowercaseText idx) (substring 0 3 queryLower)
    then 0.5%float
    else 0%float in
  (* 3. Word-level matching: the inner loop breaks at the first item word
     that matches *)
  let matchedWords :=
    foldl (λ matchedWords qWord,
      if existsb (λ sWord,
           (sWord =? qWord)%string || (3 <=? len qWord) && HasPrefix sWord qWord)
           (SearchIndex.Words idx)
      then matchedWords + 1 else matchedWords) 0 queryWords in
  let totalWords := length queryWords in
  let WordMatch :=
    if 0 <? totalWords then
      let wordMatch :=
        (F64.of_int (Z.of_nat matchedWords) / F64.of_int (Z.of_nat totalWords))%float in
      if matchedWords =? totalWords then F64.Min (wordMatch * 1.2) 1.0 else wordMatch
    else 0%float in
  (* 4. Substring match *)
  let SubstringMatch :=
    if Contains (SearchIndex.LowercaseText idx) queryLower then
      let lengthRatio :=
        (F64.of_int (Z.of_nat (len queryLower))
         / F64.of_int (SearchIndex.TextLength idx))%float in
      (0.7 + 0.3 * lengthRatio)%float
    else 0%float in
  (* 5. N-gram similarity *)
  let TrigramSimilarity :=
    calculateJaccardSimilarity queryTrigrams (SearchIndex.Trigrams idx) in
  let BigramSimilarity :=
    calculateJaccardSimilarity queryBigrams (SearchIndex.Bigrams idx) in
  (* 6. Acronym matching *)
  let AcronymMatch :=
    if negb (queryAcronym =? "")%string
       && (queryAcronym =? SearchIndex.Acronym idx)%string
    then 0.8%float else 0%float in
  (* 7. Levenshtein distance (normalized) *)
  let levDist :=
    calculateLevenshteinDistance queryLower (SearchIndex.LowercaseText idx) in
  let maxLen := max (Z.of_nat (len queryLower)) (SearchIndex.TextLength idx) in
  let LevenshteinSim :=
    if (maxLen >? 0)%Z then
      (1.0 - F64.of_int (Z.of_nat levDist) / F64.of_int maxLen)%float
    else 0%float in
  (* Weighted final score *)
  let acc := (0.0, 0.0)%float in
  let acc := add_component ExactMatch (weights !!! "exact") acc in
  let acc := add_component PrefixMatch (weights !!! "prefix") acc in
  let acc := add_component WordMatch (weights !!! "word") acc in
  let acc := add_component SubstringMatch (weights !!! "substring") acc in
  let acc := add_component TrigramSimilarity (weights !!! "trigram") acc in
  let acc := add_component BigramSimilarity (weights !!! "bigram") acc in
  let acc := add_component AcronymMatch (weights !!! "acronym") acc in
  let acc := add_component LevenshteinSim (weights !!! "levenshtein") acc in
  let weightedSum := acc.1 in
  let totalWeight := acc.2 in
  let FinalScore :=
    if F64.gt totalWeight 0 then
      let finalScore := (weightedSum / totalWeight)%float in
      (* Bonus for short queries that match exactly *)
      let finalScore :=
        if (len queryLower <=? 10) && F64.gt ExactMatch 0 then 1.0%float
        else finalScore in
      (* Bonus for high word match with substring match *)
      if F64.ge WordMatch 0.8 && F64.gt SubstringMatch 0
      then F64.Min (finalScore * 1.1) 1.0
      else finalScore
    else 0%float in
  {| ExactMatch := ExactMatch;
     PrefixMatch := PrefixMatch;
     WordMatch := WordMatch;
     SubstringMatch := SubstringMatch;
     TrigramSimilarity := TrigramSimilarity;
     BigramSimilarity := BigramSimilarity;
     AcronymMatch := AcronymMatch;
     LevenshteinSim := LevenshteinSim;
     FinalScore := FinalScore |}.

Definition filterItems (filter : option (Filter T))
  : M (ImprovedSearcher T) (list (SearchIndex.t T)) :=
  match filter with
  | None => gets searchIndex
  | Some filter =>
      index ← gets searchIndex;
      mret (foldl (λ filtered idx,
              if Matches filter (SearchIndex.Item idx) then filtered ++ [idx]
              else filtered) [] index)
  end.

Definition GetItemCount : M (ImprovedSearcher T) nat :=
  gets (λ s, length (items s)).

Definition GetMinSimilarity : M (ImprovedSearcher T) float :=
  gets minSimilarity.

Definition SetMinSimilarity (minSimilarity : float) : M (ImprovedSearcher T) unit :=
  modify (λ s, {| items := items s; searchIndex := searchIndex s;
                  debugMode := debugMode s; minSimilarity := minSimilarity |}).

Definition SetDebugMode (debug : bool) : M (ImprovedSearcher T) unit :=
  modify (λ s, {| items := items s; searchIndex := searchIndex s;
                  debugMode := debug; minSimilarity := minSimilarity s |}).

(** A response with every field at its zero value but [Error]. *)
Definition error_response (msg : string) : SearchResponse.t T :=
  {| SearchResponse.Item := None;
     SearchResponse.Similarity := 0;
     SearchResponse.Message := "";
     SearchResponse.Error := msg;
     SearchResponse.Debug := None |}.

(** The scoring loop of [Search]: the candidates that pass the coarse
    threshold, in candidate order. *)
Definition scoreCandidates (candidates : list (SearchIndex.t T))
    (lowercaseQuery : string) (queryWords : list string)
    (queryWordSet queryTrigrams queryBigrams : gset string) (queryAcronym : string)
  : M (ImprovedSearcher T) (list (scoredResult T)) :=
  foldM (λ results idx,
    let components :=
      calculateScore idx lowercaseQuery queryWords queryWordSet
                     queryTrigrams queryBigrams queryAcronym in
    minSim ← gets minSimilarity;
    if F64.ge (FinalScore components) (minSim * 0.5)
    then mret (results ++ [{| index := idx;
                              score := FinalScore components;
                              components := components |}])
    else mret results) [] candidates.

(** [topN] after both clamps of [Search]. *)
Definition clampTopN (reqTopN : option Z) (nresults : nat) : Z :=
  let topN :=
    match reqTopN with
    | Some t => if (t <? 1)%Z then 1%Z else if (t >? 10)%Z then 10%Z else t
    | None => 1%Z
    end in
  if (topN >? Z.of_nat nresults)%Z then Z.of_nat nresults else topN.

(** The [Debug] field of a response. *)
Definition debugInfo (req : SearchRequest.t T) (normalizedQuery : string)
    (result : scoredResult T) (ncandidates : nat)
  : M (ImprovedSearcher T) (option DebugInfo.t) :=
  debugMode ← gets debugMode;
  if debugMode || match SearchRequest.Debug req with Some d => d | None => false end
  then
    total ← gets (λ s, length (searchIndex s));
    mret (Some {| DebugInfo.QueryNormalized := normalizedQuery;
                  DebugInfo.ScoreComponents := Some (components result);
                  DebugInfo.FilteredCandidates := ncandidates;
                  DebugInfo.TotalCandidates := total |})
  else mret None.

Definition Search (req : SearchRequest.t T) : M (ImprovedSearcher T) (Outcome T) :=
  let Query := SearchRequest.Query req in
  if (TrimSpace Query =? "")%string then
    mret (Single (error_response "Query cannot be empty"))
  else
    (* Prepare query *)
    let normalizedQuery := normalizeText Query in
    let lowercaseQuery := ToLower normalizedQuery in
    let queryWords := extractWords lowercaseQuery in
    let queryWordSet := createWordSet queryWords in
    let queryTrigrams := createCharNgrams lowercaseQuery 3 in
    let queryBigrams := createCharNgrams lowercaseQuery 2 in
    let queryAcronym := extractAcronym Query in
    (* Filter candidates if filter is provided *)
    candidates ← filterItems (SearchRequest.Filters req);
    if length candidates =? 0 then
      let message :=
        match SearchRequest.Filters req with
        | Some f => "No items found matching filter: " +:+ Description f
        | None => "No items found matching the filter criteria"
        end in
      mret (Single (error_response message))
    else
      (* Score all candidates *)
      results ← scoreCandidates candidates lowercaseQuery queryWords queryWordSet
                  queryTrigrams queryBigrams queryAcronym;
      (* Sort by score (descending) *)
      let results := sort_Slice results (λ a b, F64.gt (score a) (score b)) in
      (* Prepare response *)
      let topN := clampTopN (SearchRequest.TopN req) (length results) in
      if (topN =? 0)%Z then
        mret (Single (error_response ("No matches found for '" +:+ Query +:+ "'")))
      else if (topN >? 1)%Z then
        (* Return multiple results if requested *)
        responses ← foldM (λ responses i,
          match results !! i with
          | Some result =>
              debug ← debugInfo req normalizedQuery result (length candidates);
              mret (responses ++ [
                {| SearchResponse.Item := Some (SearchIndex.Item (index result));
                   SearchResponse.Similarity := score result;
                   SearchResponse.Message :=
                     "Rank " +:+ pretty (i + 1) +:+ " with " +:+
                     format_f2 (score result * 100)%float +:+ "% similarity";
                   SearchResponse.Error := "";
                   SearchResponse.Debug := debug |}])
          (* not reached: topN <= len(results) *)
          | None => mret responses
          end) [] (seq 0 (Z.to_nat topN));
        let filterDesc :=
          match SearchRequest.Filters req with
          | Some f => " with filter: " +:+ Description f
          | None => ""
          end in
        mret (Multi
          {| MultiSearchResponse.Results := responses;
             MultiSearchResponse.Query := Query;
             MultiSearchResponse.TotalFound := length candidates;
             MultiSearchResponse.Filters := SearchRequest.Filters req;
             MultiSearchResponse.Message :=
               "Found " +:+ pretty (length candidates) +:+ " items" +:+ filterDesc
               +:+ " matching '" +:+ Query +:+ "'" |})
      else
        (* Return single best result *)
        match results with
        | best :: _ =>
            debug ← debugInfo req normalizedQuery best (length candidates);
            mret (Single
              {| SearchResponse.Item := Some (SearchIndex.Item (index best));
                 SearchResponse.Similarity := score best;
                 SearchResponse.Message :=
                   "Found item with " +:+ format_f2 (score best * 100)%float
                   +:+ "% similarity";
                 SearchResponse.Error := "";
                 SearchResponse.Debug := debug |})
        (* not reached: topN >= 1 here, so [results] is not empty *)
        | [] => mret (Single (error_response ""))
        end.

End Engine.

End beacon.

(** * Proofs *)

Import beacon.

(** ** float64: order and division *)

Module F64Facts.

(** A key that orders the non-NaN values as [SFcompare] does. *)
Definition key (x : spec_float) : Z * Z * Z :=
  match x with
  | S754_infinity true => (-2, 0, 0)
  | S754_finite true m e => (-1, - e, Z.neg m)
  | S754_zero _ | S754_nan => (0, 0, 0)
  | S754_finite false m e => (1, e, Z.pos m)
  | S754_infinity false => (2, 0, 0)
  end%Z.

Definition lex_lt (a b : Z * Z * Z) : Prop :=
  (a.1.1 < b.1.1 ∨ a.1.1 = b.1.1 ∧ (a.1.2 < b.1.2 ∨ a.1.2 = b.1.2 ∧ a.2 < b.2))%Z.

Definition lex_cmp (a b : Z * Z * Z) : comparison :=
  match (a.1.1 ?= b.1.1)%Z with
  | Eq => match (a.1.2 ?= b.1.2)%Z with
          | Eq => (a.2 ?= b.2)%Z
          | c => c
          end
  | c => c
  end.

Definition is_num (x : spec_float) : Prop := x ≠ S754_nan.

Lemma SFcompare_key x y :
  is_num x → is_num y → SFcompare x y = Some (lex_cmp (key x) (key y)).
Proof.
  unfold is_num, lex_cmp.
  destruct x as [[]|[]| |[] m e], y as [[]|[]| |[] m' e']; simpl;
    try congruence; intros _ _; try reflexivity.
  rewrite Z.compare_opp, (Z.compare_antisym e e').
  destruct (e ?= e')%Z; reflexivity.
Qed.

Lemma lex_cmp_lt a b : lex_cmp a b = Lt ↔ lex_lt a b.
Proof.
  unfold lex_cmp, lex_lt. destruct a as [[a1 a2] a3], b as [[b1 b2] b3]; simpl.
  destruct (Z.compare_spec a1 b1), (Z.compare_spec a2 b2), (Z.compare_spec a3 b3);
    split; intros; try congruence; try lia.
Qed.

Lemma lex_cmp_gt a b : lex_cmp a b = Gt ↔ lex_lt b a.
Proof.
  unfold lex_cmp, lex_lt. destruct a as [[a1 a2] a3], b as [[b1 b2] b3]; simpl.
  destruct (Z.compare_spec a1 b1), (Z.compare_spec a2 b2), (Z.compare_spec a3 b3);
    split; intros; try congruence; try lia.
Qed.

Definition num (x : float) : Prop := is_num (Prim2SF x).

Lemma nan_or_num (x : spec_float) : x = S754_nan ∨ is_num x.
Proof. destruct x; (by left) || (by right). Qed.

Lemma SFcompare_nan_r (x : spec_float) : SFcompare x S754_nan = None.
Proof. by destruct x as [[]|[]| |[] ]. Qed.

Lemma ltb_key x y :
  (x <? y)%float = true ↔ num x ∧ num y ∧ lex_lt (key (Prim2SF x)) (key (Prim2SF y)).
Proof.
  rewrite FloatAxioms.ltb_spec. unfold SFltb, num.
  destruct (nan_or_num (Prim2SF x)) as [->|Hx].
  { simpl. split; [congruence | intros [Hn _]; by destruct Hn]. }
  destruct (nan_or_num (Prim2SF y)) as [->|Hy].
  { rewrite SFcompare_nan_r. split; [congruence | intros (_ & Hn & _); by destruct Hn]. }
  rewrite SFcompare_key by assumption. rewrite <- lex_cmp_lt.
  destruct (lex_cmp _ _); split;
    try (intros; repeat split; (assumption || discriminate));
    try (intros (_ & _ & Hc); (reflexivity || discriminate || by destruct Hc)).
Qed.

Lemma leb_key x y :
  (x <=? y)%float = true ↔ num x ∧ num y ∧ ¬ lex_lt (key (Prim2SF y)) (key (Prim2SF x)).
Proof.
  rewrite FloatAxioms.leb_spec. unfold SFleb, num.
  destruct (nan_or_num (Prim2SF x)) as [->|Hx].
  { simpl. split; [congruence | intros [Hn _]; by destruct Hn]. }
  destruct (nan_or_num (Prim2SF y)) as [->|Hy].
  { rewrite SFcompare_nan_r. split; [congruence | intros (_ & Hn & _); by destruct Hn]. }
  rewrite SFcompare_key by assumption. rewrite <- lex_cmp_gt.
  destruct (lex_cmp _ _); split;
    try (intros; repeat split; (assumption || discriminate));
    try (intros (_ & _ & Hc); (reflexivity || discriminate || by destruct Hc)).
Qed.


Lemma ge_num a b : F64.ge a b = true → num a.
Proof. unfold F64.ge. rewrite leb_key. tauto. Qed.

(** On numbers, [>] is a strict weak order. *)
Lemma gt_irrefl a : F64.gt a a = false.
Proof.
  unfold F64.gt. destruct (a <? a)%float eqn:E; [|done].
  apply ltb_key in E as (_ & _ & E). unfold lex_lt in E. lia.
Qed.

Lemma gt_trans a b c :
  F64.gt a b = true → F64.gt b c = true → F64.gt a c = true.
Proof.
  unfold F64.gt. rewrite !ltb_key. unfold lex_lt. intros (? & ? & ?) (? & ? & ?).
  repeat split; try assumption. lia.
Qed.

Lemma gt_false_le a b : num a → num b → F64.gt a b = false ↔ (a <=? b)%float = true.
Proof.
  intros Ha Hb. unfold F64.gt. rewrite leb_key. split.
  - intros E. repeat split; try assumption. intros L.
    assert ((b <? a)%float = true) by (apply ltb_key; auto). congruence.
  - intros (_ & _ & L). destruct (b <? a)%float eqn:E; [|done].
    apply ltb_key in E as (_ & _ & E). contradiction.
Qed.

Lemma lt_not_ge a b : (a <? b)%float = true → F64.ge a b = false.
Proof.
  intros L%ltb_key. unfold F64.ge. destruct (b <=? a)%float eqn:E; [|done].
  apply leb_key in E. tauto.
Qed.

Lemma gt_neg_trans a b c :
  num a → num b → num c →
  F64.gt a b = false → F64.gt b c = false → F64.gt a c = false.
Proof.
  intros Ha Hb Hc. rewrite !gt_false_le by assumption. rewrite !leb_key.
  unfold lex_lt. intros (_ & _ & ?) (_ & _ & ?). repeat split; try assumption. lia.
Qed.

Section Division.
Local Open Scope Z_scope.

(** The mantissa digits that [SpecFloat] counts. *)
Lemma digits2_size p : digits2_pos p = Pos.size p.
Proof. induction p; simpl; congruence. Qed.

Lemma digits_bounds p :
  2 ^ Z.pos (digits2_pos p) ≤ 2 * Z.pos p ∧ Z.pos p < 2 ^ Z.pos (digits2_pos p).
Proof.
  rewrite digits2_size. split.
  - pose proof (Pos.size_le p) as L.
    change (2 * Z.pos p) with (Z.pos p~0). rewrite <- Pos2Z.inj_pow.
    apply Pos2Z.pos_le_pos. exact L.
  - pose proof (Pos.size_gt p) as L. rewrite <- Pos2Z.inj_pow.
    apply Pos2Z.pos_lt_pos. exact L.
Qed.

Lemma digits_le p n : 0 ≤ n → Z.pos p < 2 ^ n → Z.pos (digits2_pos p) ≤ n.
Proof.
  intros Hn Hp. destruct (digits_bounds p) as [L _].
  destruct (Z.le_gt_cases (Z.pos (digits2_pos p)) n) as [|G]; [done|].
  assert (2 ^ (n + 1) ≤ 2 ^ Z.pos (digits2_pos p)) by (apply Z.pow_le_mono_r; lia).
  rewrite Z.pow_add_r in * by lia. lia.
Qed.

(** Shifting right divides the mantissa. *)
Lemma shr_1_m r : 0 ≤ shr_m r → shr_m (shr_1 r) = shr_m r / 2.
Proof.
  rewrite <- Z.div2_div. destruct r as [[|[p|p|]|p] b s]; simpl; try reflexivity; lia.
Qed.

Lemma iter_shr_1 k : ∀ r, 0 ≤ shr_m r →
  shr_m (SpecFloat.iter_pos shr_1 k r) = shr_m r / 2 ^ Z.pos k.
Proof.
  assert (P : ∀ k, 0 < 2 ^ Z.pos k) by (intros; apply Z.pow_pos_nonneg; lia).
  assert (D : ∀ k, 2 ^ Z.pos k~0 = 2 ^ Z.pos k * 2 ^ Z.pos k).
  { intros q. rewrite Pos2Z.inj_xO, <- Z.pow_add_r by lia. f_equal. lia. }
  induction k as [k IH|k IH|]; intros r Hr; simpl.
  - assert (H1 : 0 ≤ shr_m (shr_1 r)).
    { rewrite shr_1_m by done. apply Z.div_pos; lia. }
    assert (H2 : 0 ≤ shr_m (SpecFloat.iter_pos shr_1 k (shr_1 r))).
    { rewrite IH by done. apply Z.div_pos; auto. }
    rewrite IH, IH, shr_1_m by done.
    rewrite !Z.div_div by (auto; lia). f_equal.
    rewrite Pos2Z.inj_xI, Z.pow_add_r, <- Pos2Z.inj_xO, D by lia. lia.
  - assert (H2 : 0 ≤ shr_m (SpecFloat.iter_pos shr_1 k r)).
    { rewrite IH by done. apply Z.div_pos; auto. }
    rewrite IH, IH by done.
    rewrite !Z.div_div by (auto; lia). f_equal. rewrite D. lia.
  - rewrite shr_1_m by done. reflexivity.
Qed.

Lemma shr_fexp_pos m e l r e' :
  0 < m < 2 ^ 64 → -1000 ≤ e →
  shr_fexp prec emax m e l = (r, e') →
  0 < shr_m r ≤ m ∧ e ≤ e' ≤ e + 11.
Proof.
  intros Hm He. destruct m as [|p|p]; try lia.
  unfold shr_fexp, shr, fexp, SpecFloat.emin, prec, emax. simpl Zdigits2.
  destruct (digits_bounds p) as [L U].
  pose proof (digits_le p 64 ltac:(lia) ltac:(lia)) as D.
  assert (Hr : shr_m (shr_record_of_loc (Z.pos p) l) = Z.pos p)
    by (destruct l as [|[]]; reflexivity).
  set (d := Z.pos (digits2_pos p)) in *.
  replace (Z.max (d + e - 53) (3 - 1024 - 53) - e) with (d - 53) by lia.
  destruct (d - 53) as [|k|k] eqn:Ek; intros [= <- <-]; rewrite ?Hr; try lia.
  rewrite iter_shr_1, Hr by (rewrite Hr; lia).
  assert (0 < 2 ^ Z.pos k) by (apply Z.pow_pos_nonneg; lia).
  assert (2 ^ d = 2 ^ 53 * 2 ^ Z.pos k).
  { rewrite <- Z.pow_add_r by lia. f_equal. lia. }
  split; [split|lia].
  - apply Z.lt_le_trans with (2 ^ 52); [done|].
    apply Z.div_le_lower_bound; [done|]. change (2 ^ 53) with (2 * 2 ^ 52) in *. lia.
  - apply Z.div_le_upper_bound; [done|]. nia.
Qed.

Lemma round_nearest_even_bounds m l :
  m ≤ round_nearest_even m l ≤ m + 1.
Proof. destruct l as [|[]]; simpl; try destruct (Z.even m); lia. Qed.

Lemma binary_round_aux_finite m e :
  0 < m < 2 ^ 63 → -1000 ≤ e ≤ 0 →
  ∃ m' e', binary_round_aux prec emax false m e loc_Exact = S754_finite false m' e'.
Proof.
  intros Hm He. unfold binary_round_aux.
  destruct (shr_fexp prec emax m e loc_Exact) as [r1 e1] eqn:E1.
  apply shr_fexp_pos in E1 as [M1 X1]; [|lia..].
  pose proof (round_nearest_even_bounds (shr_m r1) (loc_of_shr_record r1)) as R.
  destruct (shr_fexp prec emax _ e1 loc_Exact) as [r2 e2] eqn:E2.
  apply shr_fexp_pos in E2 as [M2 X2]; [|lia..].
  destruct (shr_m r2) as [|p|p]; try lia.
  replace (e2 <=? emax - prec) with true; [eauto|].
  symmetry. apply Z.leb_le. unfold emax, prec. lia.
Qed.

Lemma iter_xO p k : Z.pos (Pos.iter xO p k) = Z.pos p * 2 ^ Z.pos k.
Proof.
  induction k as [|k IH] using Pos.peano_ind.
  - simpl. lia.
  - rewrite Pos.iter_succ, Pos2Z.inj_xO, IH, Pos2Z.inj_succ, Z.pow_succ_r by lia. lia.
Qed.

(** An [int] in range converts to a finite positive float. *)
Lemma binary_normalize_finite z :
  0 < z < 2 ^ 63 →
  ∃ m e, binary_normalize prec emax z 0 false = S754_finite false m e.
Proof.
  intros Hz. destruct z as [|p|p]; try lia. unfold binary_normalize, binary_round.
  destruct (digits_bounds p) as [L U].
  pose proof (digits_le p 63 ltac:(lia) ltac:(lia)) as D.
  unfold shl_align, fexp, SpecFloat.emin, prec, emax.
  set (d := Z.pos (digits2_pos p)) in *.
  replace (Z.max (d + 0 - 53) (3 - 1024 - 53) - 0) with (d - 53) by lia.
  destruct (d - 53) as [|k|k] eqn:Ek; try (apply binary_round_aux_finite; lia).
  apply binary_round_aux_finite; [|lia].
  rewrite iter_xO. split; [lia|].
  assert (0 < 2 ^ Z.pos k) by (apply Z.pow_pos_nonneg; lia).
  assert (2 ^ 53 = 2 ^ d * 2 ^ Z.pos k).
  { rewrite <- Z.pow_add_r by lia. f_equal. lia. }
  apply Z.lt_trans with (2 ^ 53); [nia|done].
Qed.

Lemma of_int_finite z :
  0 < z < 2 ^ 63 → ∃ m e, Prim2SF (F64.of_int z) = S754_finite false m e.
Proof.
  intros Hz. unfold F64.of_int.
  replace (z <? 0) with false by (symmetry; apply Z.ltb_ge; lia).
  rewrite FloatAxioms.of_uint63_spec, Uint63.of_Z_spec.
  rewrite Z.mod_small by (change wB with (2 ^ 63); lia).
  by apply binary_normalize_finite.
Qed.

(** A finite float divided by itself is 1; 0 divided by it is 0. *)
Lemma div_self x s m e :
  Prim2SF x = S754_finite s m e → (x / x)%float = 1%float.
Proof.
  intros E. apply Prim2SF_inj. rewrite FloatAxioms.div_spec, E.
  unfold SF64div, SFdiv, SFdiv_core_binary.
  replace (Zdigits2 (Z.pos m) + e - (Zdigits2 (Z.pos m) + e)) with 0 by lia.
  rewrite Z.sub_diag.
  change (Z.min (fexp prec emax 0) 0) with (-53).
  change (0 - -53) with 53. cbv iota.
  rewrite Z.shiftl_mul_pow2 by lia.
  rewrite (Z.mul_comm (Z.pos m)).
  pose proof (Z.div_mul (2 ^ 53) (Z.pos m) ltac:(lia)) as Q.
  pose proof (Z.mod_mul (2 ^ 53) (Z.pos m) ltac:(lia)) as R.
  unfold Z.div, Z.modulo in Q, R.
  destruct (Z.div_eucl (2 ^ 53 * Z.pos m) (Z.pos m)) as [q r]. subst q r.
  replace (new_location (Z.pos m) 0) with loc_Exact
    by (unfold new_location; destruct (Z.even (Z.pos m)); reflexivity).
  destruct s; reflexivity.
Qed.

Lemma zero_div x m e :
  Prim2SF x = S754_finite false m e → (0 / x)%float = 0%float.
Proof.
  intros E. apply Prim2SF_inj. rewrite FloatAxioms.div_spec, E. reflexivity.
Qed.

End Division.

End F64Facts.

(** ** Jaccard similarity *)

(** [math.MaxInt] on a 64-bit platform. *)
Definition MaxInt : Z := (2 ^ 63 - 1)%Z.

Section Jaccard.
Implicit Types s : gset string.

(** The counting loop of [calculateJaccardSimilarity] counts the
    intersection. *)
Lemma intersection_count (set1 set2 : gset string) :
  set_fold (λ item n, if decide (item ∈ set2) then n + 1 else n) 0 set1
  = size (set1 ∩ set2).
Proof.
  apply (set_fold_ind_L (λ n X, n = size (X ∩ set2))).
  - by rewrite intersection_empty_l_L, size_empty.
  - intros x X n Hx ->. destruct (decide (x ∈ set2)).
    + replace (({[x]} ∪ X) ∩ set2) with ({[x]} ∪ X ∩ set2) by set_solver.
      rewrite (size_union {[x]} (X ∩ set2)) by set_solver.
      rewrite size_singleton. lia.
    + f_equal. set_solver.
Qed.

Lemma size_zero_empty s : size s = 0 → s = ∅.
Proof. intros E. by apply leibniz_equiv, size_empty_inv. Qed.

Lemma jaccard_empty : calculateJaccardSimilarity ∅ ∅ = 1%float.
Proof. reflexivity. Qed.

Lemma jaccard_one_empty (set1 set2 : gset string) :
  (set1 = ∅ ∧ set2 ≠ ∅) ∨ (set1 ≠ ∅ ∧ set2 = ∅) →
  calculateJaccardSimilarity set1 set2 = 0%float.
Proof.
  unfold calculateJaccardSimilarity.
  intros [[-> H2]|[H1 ->]]; rewrite size_empty; simpl.
  - destruct (size set2) eqn:E; [by apply size_zero_empty in E|]. reflexivity.
  - destruct (size set1) eqn:E; [by apply size_zero_empty in E|]. reflexivity.
Qed.

Lemma jaccard_self s :
  (Z.of_nat (size s) ≤ MaxInt)%Z → calculateJaccardSimilarity s s = 1%float.
Proof.
  intros Hs. unfold calculateJaccardSimilarity.
  rewrite intersection_count, intersection_idemp_L.
  destruct (size s) as [|n] eqn:E; [reflexivity|].
  replace (S n + S n - S n) with (S n) by lia. simpl.
  destruct (F64Facts.of_int_finite (Z.of_nat (S n))) as (m & e & F).
  { unfold MaxInt in Hs. lia. }
  exact (F64Facts.div_self _ _ _ _ F).
Qed.

Lemma jaccard_disjoint (set1 set2 : gset string) :
  set1 ## set2 → set1 ≠ ∅ → set2 ≠ ∅ →
  (Z.of_nat (size set1 + size set2) ≤ MaxInt)%Z →
  calculateJaccardSimilarity set1 set2 = 0%float.
Proof.
  intros D H1 H2 Hs. unfold calculateJaccardSimilarity.
  rewrite intersection_count.
  replace (set1 ∩ set2) with (∅ : gset string) by set_solver.
  rewrite size_empty, Nat.sub_0_r.
  destruct (size set1) as [|n1] eqn:E1; [by apply size_zero_empty in E1|].
  destruct (size set2) as [|n2] eqn:E2; [by apply size_zero_empty in E2|].
  change (S n1 + S n2 =? 0) with false. cbn [Nat.eqb andb orb].
  destruct (F64Facts.of_int_finite (Z.of_nat (S n1 + S n2))) as (m & e & F).
  { unfold MaxInt in Hs. lia. }
  exact (F64Facts.zero_div _ _ _ F).
Qed.

(** C7: the Jaccard similarity of a string set with itself is 1.0, and of
    two disjoint string sets is 0.0, where two empty sets give 1.0 and
    exactly one empty set gives 0.0. Set sizes are Go [int]s. *)
Theorem jaccard_self_and_disjoint (set1 set2 : gset string) :
  (Z.of_nat (size set1 + size set2) ≤ MaxInt)%Z →
  calculateJaccardSimilarity set1 set1 = 1%float ∧
  calculateJaccardSimilarity ∅ ∅ = 1%float ∧
  (set1 ## set2 → ¬ (set1 = ∅ ∧ set2 = ∅) →
   calculateJaccardSimilarity set1 set2 = 0%float).
Proof.
  intros Hs. split; [apply jaccard_self; lia|]. split; [apply jaccard_empty|].
  intros D NE.
  destruct (decide (set1 = ∅)) as [E1|N1], (decide (set2 = ∅)) as [E2|N2].
  - tauto.
  - apply jaccard_one_empty; auto.
  - apply jaccard_one_empty; auto.
  - by apply jaccard_disjoint.
Qed.

Lemma jaccard_self_and_disjoint_witness :
  calculateJaccardSimilarity {["ab"; "bc"]} {["ab"; "bc"]} = 1%float ∧
  calculateJaccardSimilarity ∅ ∅ = 1%float ∧
  ({["ab"; "bc"]} ## ({["xy"]} : gset string) →
   ¬ (({["ab"; "bc"]} : gset string) = ∅ ∧ ({["xy"]} : gset string) = ∅) →
   calculateJaccardSimilarity {["ab"; "bc"]} {["xy"]} = 0%float).
Proof.
  apply (jaccard_self_and_disjoint {["ab"; "bc"]} {["xy"]}).
  vm_compute. discriminate.
Defined.

End Jaccard.

(** ** Character n-grams *)

Section Ngrams.

(** The text between two copies of the padding, as [createCharNgrams]
    builds it. *)
Definition padded (text : string) (n : nat) : string :=
  Repeat "#" (n - 1) +:+ text +:+ Repeat "#" (n - 1).

(** [g] is a contiguous substring of [s] of length [n]. *)
Definition ngram_of (s : string) (n : nat) (g : string) : Prop :=
  len g = n ∧ ∃ pre post, s = pre +:+ g +:+ post.

Lemma app_String c (s t : string) : String c s +:+ t = String c (s +:+ t).
Proof. reflexivity. Qed.

Lemma len_app (s t : string) : len (s +:+ t) = len s + len t.
Proof.
  induction s as [|c s IH]; [done|].
  rewrite app_String. unfold len in *. simpl. lia.
Qed.

Lemma substring_0_split n : ∀ s, n ≤ len s →
  ∃ post, s = substring 0 n s +:+ post ∧ len (substring 0 n s) = n.
Proof.
  induction n as [|n IH]; intros s Hn.
  - exists s. by destruct s.
  - destruct s as [|c s]; [simpl in Hn; lia|].
    destruct (IH s) as (post & E & L); [unfold len in *; simpl in *; lia|].
    exists post. simpl. rewrite app_String. split; [f_equal; exact E|].
    unfold len in *. simpl. lia.
Qed.

Lemma substring_split i : ∀ n s, i + n ≤ len s →
  ∃ pre post, s = pre +:+ substring i n s +:+ post
               ∧ len pre = i ∧ len (substring i n s) = n.
Proof.
  induction i as [|i IH]; intros n s Hn.
  - destruct (substring_0_split n s Hn) as (post & E & L).
    by exists "", post.
  - destruct s as [|c s]; [simpl in Hn; lia|].
    destruct (IH n s) as (pre & post & E & L1 & L2); [unfold len in *; simpl in *; lia|].
    exists (String c pre), post. simpl. rewrite app_String. split; [f_equal; exact E|].
    unfold len in *. simpl. lia.
Qed.

Lemma substring_0_app g : ∀ post, substring 0 (len g) (g +:+ post) = g.
Proof.
  induction g as [|c g IH]; intros post.
  - by destruct post.
  - rewrite app_String. simpl. f_equal. apply IH.
Qed.

Lemma substring_app pre : ∀ g post,
  substring (len pre) (len g) (pre +:+ g +:+ post) = g.
Proof.
  induction pre as [|c pre IH]; intros g post.
  - exact (substring_0_app g post).
  - rewrite app_String. simpl. apply IH.
Qed.

Lemma ngram_of_substring s n g :
  ngram_of s n g ↔ ∃ i, i + n ≤ len s ∧ g = substring i n s.
Proof.
  split.
  - intros (L & pre & post & ->). exists (len pre). split.
    + rewrite !len_app. lia.
    + by rewrite <- L, substring_app.
  - intros (i & Hi & ->).
    destruct (substring_split i n s Hi) as (pre & post & E & _ & L).
    split; [done|]. by exists pre, post.
Qed.

(** The set built by a loop that adds [f i] for each [i] of [l]. *)
Lemma elem_of_foldl_add {A} (f : A → string) (l : list A) : ∀ (acc : gset string) g,
  g ∈ foldl (λ ngrams i, {[f i]} ∪ ngrams) acc l ↔ g ∈ acc ∨ ∃ i, i ∈ l ∧ g = f i.
Proof.
  induction l as [|x l IH]; intros acc g; simpl.
  - split; [auto|]. intros [?|(i & Hi & _)]; [done|]. by apply elem_of_nil in Hi.
  - rewrite IH. rewrite elem_of_union, elem_of_singleton. split.
    + intros [[->|?]|(i & Hi & ->)]; [right; exists x|by left|right; exists i];
        split; try done; set_solver.
    + intros [?|(i & [->|Hi]%elem_of_cons & ->)]; [left; by right|left; by left|].
      right. by exists i.
Qed.

Lemma createCharNgrams_short text n :
  len text < n → createCharNgrams text n = {[text]}.
Proof.
  intros L. unfold createCharNgrams.
  by replace (len text <? n) with true by (symmetry; by apply Nat.ltb_lt).
Qed.

Lemma createCharNgrams_long text n g :
  n ≤ len text →
  g ∈ createCharNgrams text n ↔ ngram_of (padded text n) n g.
Proof.
  intros L. unfold createCharNgrams.
  replace (len text <? n) with false by (symmetry; apply Nat.ltb_ge; lia).
  fold (padded text n). rewrite elem_of_foldl_add, ngram_of_substring.
  assert (n ≤ len (padded text n)).
  { unfold padded. rewrite !len_app. lia. }
  split.
  - intros [?|(i & Hi%elem_of_seq & ->)]; [set_solver|]. exists i. split; [lia|done].
  - intros (i & Hi & ->). right. exists i. split; [|done]. apply elem_of_seq. lia.
Qed.

(** C6: for n = 2 or 3, a text shorter than n yields the singleton of the
    text itself; otherwise the n-grams are exactly the contiguous substrings
    of length n of the text padded on both ends with n-1 copies of '#';
    the set is never empty. *)
Theorem createCharNgrams_spec text n :
  n = 2 ∨ n = 3 →
  (len text < n → createCharNgrams text n = {[text]}) ∧
  (n ≤ len text →
   ∀ g, g ∈ createCharNgrams text n ↔
        ngram_of (Repeat "#" (n - 1) +:+ text +:+ Repeat "#" (n - 1)) n g) ∧
  createCharNgrams text n ≠ ∅.
Proof.
  intros Hn. split; [apply createCharNgrams_short|].
  split; [intros L g; by apply createCharNgrams_long|].
  destruct (decide (len text < n)) as [S|L].
  - rewrite createCharNgrams_short by done. set_solver.
  - assert (substring 0 n (padded text n) ∈ createCharNgrams text n) as I; [|set_solver].
    apply createCharNgrams_long; [lia|]. apply ngram_of_substring. exists 0.
    split; [|done]. unfold padded. rewrite !len_app. lia.
Qed.

Lemma createCharNgrams_spec_witness :
  (len "go" < 3 → createCharNgrams "go" 3 = {["go"]}) ∧
  (3 ≤ len "go" →
   ∀ g, g ∈ createCharNgrams "go" 3 ↔
        ngram_of (Repeat "#" (3 - 1) +:+ "go" +:+ Repeat "#" (3 - 1)) 3 g) ∧
  createCharNgrams "go" 3 ≠ ∅.
Proof. apply (createCharNgrams_spec "go" 3). by right. Defined.

Example createCharNgrams_bigrams :
  createCharNgrams "go" 2 = {["#g"; "go"; "o#"]}.
Proof. by vm_compute. Qed.

End Ngrams.

(** ** Levenshtein distance *)

Section Levenshtein.

Definition cost (x y : ascii) : nat := if decide (x = y) then 0 else 1.

(** Edit distance by recursion on the first characters. *)
Fixpoint lev (s t : list ascii) : nat :=
  match s with
  | [] => length t
  | x :: s' =>
      (fix lev_s (t : list ascii) : nat :=
         match t with
         | [] => length s
         | y :: t' =>
             Nat.min (lev s' t + 1) (Nat.min (lev_s t' + 1) (lev s' t' + cost x y))
         end) t
  end.

Lemma lev_nil_l t : lev [] t = length t.
Proof. reflexivity. Qed.

Lemma lev_nil_r s : lev s [] = length s.
Proof. by destruct s. Qed.

Lemma lev_cons x s y t :
  lev (x :: s) (y :: t)
  = Nat.min (lev s (y :: t) + 1) (Nat.min (lev (x :: s) t + 1) (lev s t + cost x y)).
Proof. reflexivity. Qed.

Opaque lev.

Lemma cost_sym x y : cost x y = cost y x.
Proof. unfold cost. repeat case_decide; congruence. Qed.

Lemma cost_refl x : cost x x = 0.
Proof. unfold cost. by case_decide. Qed.

Lemma cost_triangle x y z : cost x z ≤ cost x y + cost y z.
Proof. unfold cost. repeat case_decide; try lia. congruence. Qed.

Lemma lev_sym s : ∀ t, lev s t = lev t s.
Proof.
  induction s as [|x s IHs]; intros t.
  - by rewrite lev_nil_l, lev_nil_r.
  - induction t as [|y t IHt].
    + by rewrite lev_nil_l, lev_nil_r.
    + rewrite !lev_cons, IHt, (IHs (y :: t)), (IHs t), (cost_sym x y). lia.
Qed.

Lemma lev_refl s : lev s s = 0.
Proof.
  induction s as [|x s IH]; [done|]. rewrite lev_cons, IH, cost_refl. lia.
Qed.

Lemma lev_upper s : ∀ t, lev s t ≤ length s + length t.
Proof.
  induction s as [|x s IHs]; intros t.
  - rewrite lev_nil_l. lia.
  - destruct t as [|y t].
    + rewrite lev_nil_r. lia.
    + rewrite lev_cons. specialize (IHs (y :: t)). simpl in *. lia.
Qed.

Lemma lev_lower s : ∀ t, length s ≤ length t + lev s t ∧ length t ≤ length s + lev s t.
Proof.
  induction s as [|x s IHs]; intros t.
  - rewrite lev_nil_l. simpl. lia.
  - induction t as [|y t IHt].
    + rewrite lev_nil_r. simpl. lia.
    + rewrite lev_cons.
      pose proof (IHs (y :: t)). pose proof (IHs t). simpl in *. lia.
Qed.

Lemma lev_triangle_bounded n : ∀ a b c,
  length a + length b + length c < n → lev a c ≤ lev a b + lev b c.
Proof.
  induction n as [|n IH]; intros a b c Hn; [lia|].
  destruct a as [|x a].
  { rewrite !lev_nil_l. pose proof (lev_lower b c). lia. }
  destruct c as [|z c].
  { rewrite !lev_nil_r. pose proof (lev_lower (x :: a) b). lia. }
  destruct b as [|y b].
  { rewrite lev_nil_l, lev_nil_r. apply lev_upper. }
  simpl in Hn.
  pose proof (IH a (y :: b) (z :: c) ltac:(simpl; lia)).
  pose proof (IH (x :: a) (y :: b) c ltac:(simpl; lia)).
  pose proof (IH (x :: a) b (z :: c) ltac:(simpl; lia)).
  pose proof (IH (x :: a) b c ltac:(simpl; lia)).
  pose proof (IH a b (z :: c) ltac:(simpl; lia)).
  pose proof (IH a b c ltac:(simpl; lia)).
  pose proof (cost_triangle x y z).
  pose proof (lev_cons x a y b). pose proof (lev_cons y b z c).
  pose proof (lev_cons x a z c). lia.
Qed.

Lemma lev_triangle a b c : lev a c ≤ lev a b + lev b c.
Proof. apply (lev_triangle_bounded (S (length a + length b + length c))). lia. Qed.

(** [min] of three values. *)
Lemma min_3 x y z : min [x; y; z] = Nat.min x (Nat.min y z).
Proof.
  unfold min. simpl.
  destruct (Nat.ltb_spec y x), (Nat.ltb_spec z y), (Nat.ltb_spec z x); lia.
Qed.

Lemma foldl_seq_inv {A} (P : nat → A → Prop) (f : A → nat → A) n :
  ∀ start init,
    P start init →
    (∀ k acc, start ≤ k < start + n → P k acc → P (S k) (f acc k)) →
    P (start + n) (foldl f init (seq start n)).
Proof.
  induction n as [|n IH]; intros start init H0 Hstep; simpl.
  - by rewrite Nat.add_0_r.
  - rewrite Nat.add_succ_r. apply (IH (S start)).
    + apply Hstep; [lia|done].
    + intros k acc Hk. apply Hstep. lia.
Qed.

Lemma length_chars s : length (list_ascii_of_string s) = len s.
Proof. induction s; simpl; [done|]. unfold len in *. simpl. lia. Qed.

Lemma get_chars s : ∀ k, String.get k s = list_ascii_of_string s !! k.
Proof. induction s as [|c s IH]; intros [|k]; simpl; auto. Qed.

(** *** The distance matrix *)

Lemma cell_set_cell_ne dist i j v r c :
  r ≠ i ∨ c ≠ j → cell (set_cell dist i j v) r c = cell dist r c.
Proof.
  intros N. unfold cell, set_cell. rewrite list_lookup_total_insert.
  case_decide as E; [|done]. destruct E as [<- _].
  rewrite list_lookup_total_insert_ne; [done|]. intros ->. by destruct N.
Qed.

Lemma cell_set_cell_eq dist i j v :
  i < length dist → j < length (dist !!! i) → cell (set_cell dist i j v) i j = v.
Proof.
  intros Hi Hj. unfold cell, set_cell.
  by rewrite !list_lookup_total_insert_eq.
Qed.

Section Matrix.
Variables s1 s2 : string.

(** The distance between the first [r] bytes of [s1] and the first [c]
    bytes of [s2]. *)
Definition prefix_lev (r c : nat) : nat :=
  lev (rev (take r (list_ascii_of_string s1)))
      (rev (take c (list_ascii_of_string s2))).

Lemma prefix_lev_0_l c : c ≤ len s2 → prefix_lev 0 c = c.
Proof.
  intros Hc. unfold prefix_lev. rewrite take_0, lev_nil_l, length_rev.
  rewrite length_take_le; [done|]. by rewrite length_chars.
Qed.

Lemma prefix_lev_0_r r : r ≤ len s1 → prefix_lev r 0 = r.
Proof.
  intros Hr. unfold prefix_lev. rewrite take_0, lev_nil_r, length_rev.
  rewrite length_take_le; [done|]. by rewrite length_chars.
Qed.

Lemma prefix_lev_step r c :
  r < len s1 → c < len s2 →
  prefix_lev (S r) (S c)
  = Nat.min (prefix_lev r (S c) + 1)
      (Nat.min (prefix_lev (S r) c + 1)
         (prefix_lev r c
          + (if decide (String.get r s1 = String.get c s2) then 0 else 1))).
Proof.
  intros Hr Hc. unfold prefix_lev. rewrite !get_chars.
  destruct (list_ascii_of_string s1 !! r) as [x|] eqn:Ex.
  2: { apply lookup_ge_None in Ex. rewrite length_chars in Ex. lia. }
  destruct (list_ascii_of_string s2 !! c) as [y|] eqn:Ey.
  2: { apply lookup_ge_None in Ey. rewrite length_chars in Ey. lia. }
  rewrite (take_S_r _ _ _ Ex), (take_S_r _ _ _ Ey), !rev_app_distr. simpl.
  rewrite lev_cons. unfold cost. repeat case_decide; congruence.
Qed.

Definition shape (dist : list (list nat)) : Prop :=
  length dist = len s1 + 1 ∧ ∀ r, r ≤ len s1 → length (dist !!! r) = len s2 + 1.

Definition column_0 (dist : list (list nat)) : Prop :=
  ∀ r, r ≤ len s1 → cell dist r 0 = r.

Definition rows_below (i : nat) (dist : list (list nat)) : Prop :=
  ∀ r c, r < i → r ≤ len s1 → c ≤ len s2 → cell dist r c = prefix_lev r c.

Definition row_upto (i j : nat) (dist : list (list nat)) : Prop :=
  ∀ c, c < j → c ≤ len s2 → cell dist i c = prefix_lev i c.

Lemma shape_set_cell dist i j v : shape dist → shape (set_cell dist i j v).
Proof.
  intros [Hl Hr]. unfold shape, set_cell. rewrite length_insert. split; [done|].
  intros r Hle. rewrite list_lookup_total_insert. case_decide as E; [|auto].
  destruct E as [<- _]. rewrite length_insert. auto.
Qed.

Lemma init_rows :
  let dist :=
    foldl (λ dist i, <[i := <[0 := i]> (replicate (len s2 + 1) 0)]> dist)
          (replicate (len s1 + 1) []) (seq 0 (len s1 + 1)) in
  shape dist ∧ column_0 dist.
Proof.
  pose (P := λ (k : nat) (dist : list (list nat)),
    length dist = len s1 + 1 ∧
    ∀ r, r < k → length (dist !!! r) = len s2 + 1 ∧ cell dist r 0 = r).
  assert (P (0 + (len s1 + 1))
            (foldl (λ dist i, <[i := <[0 := i]> (replicate (len s2 + 1) 0)]> dist)
               (replicate (len s1 + 1) []) (seq 0 (len s1 + 1)))) as [Hl Hr].
  { apply (foldl_seq_inv P).
    - split; [by rewrite length_replicate|]. intros r Hr. lia.
    - intros k dist Hk [Hl Hr]. split; [by rewrite length_insert|].
      intros r Hlt. unfold cell. rewrite list_lookup_total_insert.
      case_decide as E.
      + destruct E as [<- _]. rewrite length_insert, length_replicate.
        split; [done|]. apply list_lookup_total_insert_eq.
        rewrite length_replicate. lia.
      + apply Hr. destruct (decide (k = r)) as [->|]; [|lia].
        exfalso. apply E. split; [done|lia]. }
  split; [split; [done|]|]; intros r Hle; apply Hr; lia.
Qed.

Lemma init_row_0 dist :
  shape dist → column_0 dist →
  let dist' := foldl (λ dist j, set_cell dist 0 j j) dist (seq 1 (len s2)) in
  shape dist' ∧ column_0 dist' ∧ rows_below 1 dist'.
Proof.
  intros Hs Hc.
  pose (P := λ (j : nat) (dist : list (list nat)),
    shape dist ∧ column_0 dist ∧ ∀ c, c < j → c ≤ len s2 → cell dist 0 c = c).
  assert (P (1 + len s2)
            (foldl (λ dist j, set_cell dist 0 j j) dist (seq 1 (len s2))))
    as (Hs' & Hc' & Hr').
  { apply (foldl_seq_inv P).
    - split; [done|]. split; [done|]. intros c Hlt _.
      replace c with 0 by lia. apply Hc. lia.
    - intros k d Hk (Hs1 & Hc1 & Hr1). split; [by apply shape_set_cell|].
      split.
      + intros r Hle. rewrite cell_set_cell_ne by lia. by apply Hc1.
      + intros c Hlt Hle. destruct (decide (c = k)) as [->|].
        * destruct Hs1 as [Hl Hrow].
          apply cell_set_cell_eq; [|rewrite Hrow]; lia.
        * rewrite cell_set_cell_ne by lia. apply Hr1; lia. }
  split; [done|]. split; [done|]. intros r c Hlt _ Hle.
  replace r with 0 by lia. rewrite prefix_lev_0_l by done. apply Hr'; lia.
Qed.

Lemma fill_row dist i :
  1 ≤ i ≤ len s1 → shape dist → column_0 dist → rows_below i dist →
  let dist' :=
    foldl (λ dist j,
      let cost :=
        if decide (String.get (i - 1) s1 = String.get (j - 1) s2) then 0 else 1 in
      set_cell dist i j
        (min [cell dist (i - 1) j + 1;
              cell dist i (j - 1) + 1;
              cell dist (i - 1) (j - 1) + cost])) dist (seq 1 (len s2)) in
  shape dist' ∧ column_0 dist' ∧ rows_below (S i) dist'.
Proof.
  intros Hi Hs Hc Hb.
  pose (P := λ (j : nat) (dist : list (list nat)),
    shape dist ∧ column_0 dist ∧ rows_below i dist ∧ row_upto i j dist).
  match goal with |- let dist' := ?d in _ => assert (P (1 + len s2) d)
    as (Hs' & Hc' & Hb' & Hr') end.
  { apply (foldl_seq_inv P).
    - split; [done|]. split; [done|]. split; [done|]. intros c Hlt _.
      replace c with 0 by lia. rewrite prefix_lev_0_r by lia. apply Hc. lia.
    - intros k d Hk (Hs1 & Hc1 & Hb1 & Hr1). split; [by apply shape_set_cell|].
      split; [|split].
      + intros r Hle. rewrite cell_set_cell_ne by lia. by apply Hc1.
      + intros r c Hlt Hle1 Hle2. rewrite cell_set_cell_ne by lia. by apply Hb1.
      + intros c Hlt Hle. destruct (decide (c = k)) as [->|].
        * destruct Hs1 as [Hl Hrow].
          rewrite cell_set_cell_eq; [|lia|rewrite Hrow; lia].
          rewrite min_3, Hb1, Hr1, Hb1 by lia.
          destruct i as [|i']; [lia|]. destruct k as [|k']; [lia|].
          simpl. rewrite !Nat.sub_0_r. rewrite prefix_lev_step by lia. done.
        * rewrite cell_set_cell_ne by lia. apply Hr1; lia. }
  split; [done|]. split; [done|]. intros r c Hlt Hle1 Hle2.
  destruct (decide (r = i)) as [->|]; [apply Hr'; lia|apply Hb'; lia].
Qed.

Lemma fill_matrix dist :
  shape dist → column_0 dist → rows_below 1 dist →
  let dist' :=
    foldl (λ dist i,
      foldl (λ dist j,
        let cost :=
          if decide (String.get (i - 1) s1 = String.get (j - 1) s2) then 0 else 1 in
        set_cell dist i j
          (min [cell dist (i - 1) j + 1;
                cell dist i (j - 1) + 1;
                cell dist (i - 1) (j - 1) + cost])) dist (seq 1 (len s2)))
      dist (seq 1 (len s1)) in
  rows_below (1 + len s1) dist'.
Proof.
  intros Hs Hc Hb.
  pose (P := λ (i : nat) (dist : list (list nat)),
    shape dist ∧ column_0 dist ∧ rows_below i dist).
  match goal with |- let dist' := ?d in _ => assert (P (1 + len s1) d)
    as (_ & _ & Hb') end; [|done].
  apply (foldl_seq_inv P); [done|].
  intros k d Hk (Hs1 & Hc1 & Hb1). by apply fill_row; [lia|..].
Qed.

End Matrix.

(** The matrix computes the edit distance of the reversed strings. *)
Lemma calculateLevenshteinDistance_lev s1 s2 :
  calculateLevenshteinDistance s1 s2
  = lev (rev (list_ascii_of_string s1)) (rev (list_ascii_of_string s2)).
Proof.
  unfold calculateLevenshteinDistance.
  destruct (String.eqb_spec s1 s2) as [->|_]; [by rewrite lev_refl|].
  destruct (Nat.eqb_spec (len s1) 0) as [E1|N1].
  { destruct s1; [|done]. by rewrite lev_nil_l, length_rev, length_chars. }
  destruct (Nat.eqb_spec (len s2) 0) as [E2|N2].
  { destruct s2; [|done]. by rewrite lev_nil_r, length_rev, length_chars. }
  destruct (init_rows s1 s2) as [Hs Hc].
  destruct (init_row_0 s1 s2 _ Hs Hc) as (Hs' & Hc' & Hb').
  pose proof (fill_matrix s1 s2 _ Hs' Hc' Hb') as Hb. cbv zeta in Hb.
  rewrite (Hb (len s1) (len s2)) by lia.
  unfold prefix_lev. by rewrite !take_ge by (rewrite length_chars; lia).
Qed.

(** C8: the Levenshtein distance is symmetric, is 0 on equal inputs, and
    satisfies the triangle inequality. *)
Theorem calculateLevenshteinDistance_metric (a b c : string) :
  calculateLevenshteinDistance a b = calculateLevenshteinDistance b a ∧
  calculateLevenshteinDistance a a = 0 ∧
  calculateLevenshteinDistance a c
  ≤ calculateLevenshteinDistance a b + calculateLevenshteinDistance b c.
Proof.
  rewrite !calculateLevenshteinDistance_lev. split; [apply lev_sym|].
  split; [apply lev_refl|apply lev_triangle].
Qed.

Example calculateLevenshteinDistance_kitten :
  calculateLevenshteinDistance "kitten" "sitting" = 3.
Proof. reflexivity. Qed.

End Levenshtein.

(** ** The scorer *)

(** Items that are their own search text. *)
#[export] Instance string_Searchable : Searchable string :=
  {| GetSearchText s := s; GetSearchFields _ := ∅ |}.

Section Scorer.
Context `{GoText} {T : Type} `{Searchable T}.

(** The components of [calculateScore] for [idx], with the query features
    that [Search] computes from [query]. *)
Definition queryScore (query : string) (idx : SearchIndex.t T) : ScoreComponents :=
  let lowercaseQuery := ToLower (normalizeText query) in
  let queryWords := extractWords lowercaseQuery in
  calculateScore idx lowercaseQuery queryWords (createWordSet queryWords)
    (createCharNgrams lowercaseQuery 3) (createCharNgrams lowercaseQuery 2)
    (extractAcronym query).

(** Each component with its weight. *)
Definition weighted (c : ScoreComponents) : list (float * float) :=
  [(ExactMatch c, 1.0); (PrefixMatch c, 0.9); (WordMatch c, 0.85);
   (SubstringMatch c, 0.75); (TrigramSimilarity c, 0.6);
   (BigramSimilarity c, 0.4); (AcronymMatch c, 0.7);
   (LevenshteinSim c, 0.5)]%float.

(** The weighted sum of the strictly positive components over the sum of
    their weights, 0.0 when there is none. *)
Definition weighted_mean (l : list (float * float)) : float :=
  match List.filter (λ p, F64.gt p.1 0) l with
  | [] => 0%float
  | positive =>
      (foldl (λ sum p, sum + p.1 * p.2) 0 positive
       / foldl (λ sum p, sum + p.2) 0 positive)%float
  end.

(** The two bonuses, applied in order to the score [x]. *)
Definition with_bonuses (queryLower : string) (c : ScoreComponents) (x : float)
  : float :=
  let x := if (len queryLower <=? 10) && F64.gt (ExactMatch c) 0 then 1%float else x in
  if F64.ge (WordMatch c) 0.8 && F64.gt (SubstringMatch c) 0
  then F64.Min (x * 1.1) 1 else x.

(** The final score as [calculateScore] derives it from the components. *)
Definition final_of (queryLower : string) (c : ScoreComponents) : float :=
  let acc := (0.0, 0.0)%float in
  let acc := add_component (ExactMatch c) (weights !!! "exact") acc in
  let acc := add_component (PrefixMatch c) (weights !!! "prefix") acc in
  let acc := add_component (WordMatch c) (weights !!! "word") acc in
  let acc := add_component (SubstringMatch c) (weights !!! "substring") acc in
  let acc := add_component (TrigramSimilarity c) (weights !!! "trigram") acc in
  let acc := add_component (BigramSimilarity c) (weights !!! "bigram") acc in
  let acc := add_component (AcronymMatch c) (weights !!! "acronym") acc in
  let acc := add_component (LevenshteinSim c) (weights !!! "levenshtein") acc in
  if F64.gt acc.2 0 then with_bonuses queryLower c (acc.1 / acc.2)%float
  else 0%float.

Lemma FinalScore_calculateScore (idx : SearchIndex.t T) q ws wset tri bi acr :
  let c := calculateScore idx q ws wset tri bi acr in
  FinalScore c = final_of q c.
Proof. reflexivity. Qed.

Lemma weights_values :
  weights !!! "exact" = 1.0%float ∧ weights !!! "prefix" = 0.9%float ∧
  weights !!! "word" = 0.85%float ∧ weights !!! "substring" = 0.75%float ∧
  weights !!! "trigram" = 0.6%float ∧ weights !!! "bigram" = 0.4%float ∧
  weights !!! "acronym" = 0.7%float ∧ weights !!! "levenshtein" = 0.5%float.
Proof. by vm_compute. Qed.

(** The accumulation loop adds the strictly positive components only. *)
Lemma add_component_filter (l : list (float * float)) : ∀ acc,
  foldl (λ acc p, add_component p.1 p.2 acc) acc l
  = (foldl (λ sum p, sum + p.1 * p.2)%float acc.1 (List.filter (λ p, F64.gt p.1 0) l),
     foldl (λ sum p, sum + p.2)%float acc.2 (List.filter (λ p, F64.gt p.1 0) l)).
Proof.
  induction l as [|p l IH]; intros acc; simpl.
  - by destruct acc.
  - rewrite IH. unfold add_component. by destruct (F64.gt p.1 0).
Qed.

(** The total weight is positive as soon as one component counts. *)
Lemma total_weight_positive c :
  let positive := List.filter (λ p, F64.gt p.1 0) (weighted c) in
  F64.gt (foldl (λ sum p, sum + p.2)%float 0%float positive) 0
  = match positive with [] => false | _ => true end.
Proof.
  unfold weighted. simpl.
  generalize (F64.gt (ExactMatch c) 0) (F64.gt (PrefixMatch c) 0)
    (F64.gt (WordMatch c) 0) (F64.gt (SubstringMatch c) 0)
    (F64.gt (TrigramSimilarity c) 0) (F64.gt (BigramSimilarity c) 0)
    (F64.gt (AcronymMatch c) 0) (F64.gt (LevenshteinSim c) 0).
  intros [] [] [] [] [] [] [] []; reflexivity.
Qed.

Lemma filter_nil_false {A} (f : A → bool) l x :
  List.filter f l = [] → In x l → f x = false.
Proof.
  intros E I. destruct (f x) eqn:Fx; [|done].
  assert (In x (List.filter f l)) as I' by (by apply filter_In).
  by rewrite E in I'.
Qed.

Lemma final_of_spec q c :
  final_of q c = with_bonuses q c (weighted_mean (weighted c)).
Proof.
  unfold final_of.
  destruct weights_values as (-> & -> & -> & -> & -> & -> & -> & ->).
  change (add_component (LevenshteinSim c) 0.5 _)
    with (foldl (λ acc p, add_component p.1 p.2 acc) (0, 0)%float (weighted c)).
  rewrite add_component_filter. cbn [fst snd].
  rewrite total_weight_positive. unfold weighted_mean.
  destruct (List.filter _ (weighted c)) as [|p l] eqn:E; [|reflexivity].
  unfold with_bonuses.
  pose proof (filter_nil_false _ _ (ExactMatch c, 1%float) E) as E1.
  pose proof (filter_nil_false _ _ (SubstringMatch c, 0.75%float) E) as E4.
  simpl in E1, E4. rewrite E1, E4 by auto 10. by rewrite !andb_false_r.
Qed.

(** C1, amended: the final score is the weighted mean of the strictly
    positive components with the two bonuses applied to it in order; it is
    that weighted mean when neither bonus applies, and 0.0 when no component
    is positive. *)
Theorem final_score_weighted_mean (idx : SearchIndex.t T) q ws wset tri bi acr :
  let c := calculateScore idx q ws wset tri bi acr in
  FinalScore c = with_bonuses q c (weighted_mean (weighted c)) ∧
  ((len q <=? 10) && F64.gt (ExactMatch c) 0 = false →
   F64.ge (WordMatch c) 0.8 && F64.gt (SubstringMatch c) 0 = false →
   FinalScore c = weighted_mean (weighted c)) ∧
  ((∀ p, p ∈ weighted c → F64.gt p.1 0 = false) → FinalScore c = 0%float).
Proof.
  intros c. assert (E : FinalScore c = with_bonuses q c (weighted_mean (weighted c))).
  { unfold c. rewrite FinalScore_calculateScore. apply final_of_spec. }
  clearbody c. split; [done|]. split.
  - intros B1 B2. rewrite E. unfold with_bonuses. by rewrite B1, B2.
  - intros Z. rewrite E. unfold with_bonuses.
    pose proof (Z (ExactMatch c, 1%float)) as Z1.
    pose proof (Z (SubstringMatch c, 0.75%float)) as Z4.
    simpl in Z1, Z4. rewrite Z1, Z4 by (unfold weighted; set_solver).
    rewrite !andb_false_r. unfold weighted_mean.
    destruct (List.filter _ (weighted c)) as [|p l] eqn:F; [done|].
    assert (In p (List.filter (λ p, F64.gt p.1 0) (weighted c))) as I
      by (rewrite F; by left).
    apply filter_In in I as [I P]. apply list_elem_of_In, Z in I. congruence.
Qed.

(** A candidate whose lowercased text is the query, at most 10 bytes long,
    scores 1.0. *)
Lemma exact_short_scores_one (idx : SearchIndex.t T) q ws wset tri bi acr :
  SearchIndex.LowercaseText idx = q → len q ≤ 10 →
  FinalScore (calculateScore idx q ws wset tri bi acr) = 1%float.
Proof.
  intros E L. rewrite FinalScore_calculateScore, final_of_spec. unfold with_bonuses.
  change (ExactMatch (calculateScore idx q ws wset tri bi acr))
    with (if (SearchIndex.LowercaseText idx =? q)%string then 1%float else 0%float).
  rewrite E, String.eqb_refl.
  replace (len q <=? 10) with true by (symmetry; by apply Nat.leb_le).
  by destruct (F64.ge _ _ && F64.gt _ _).
Qed.

(** C3: an indexed item whose normalized, lowercased text has at most 10
    bytes scores exactly 1.0 against a query equal to its own text. *)
Theorem own_text_scores_one (items : list T) minSimilarity debugMode idx :
  idx ∈ searchIndex (NewImprovedSearcher items minSimilarity debugMode) →
  len (SearchIndex.LowercaseText idx) ≤ 10 →
  FinalScore (queryScore (GetSearchText (SearchIndex.Item idx)) idx) = 1%float.
Proof.
  intros (item & -> & _)%list_elem_of_fmap L. unfold queryScore.
  apply exact_short_scores_one; [reflexivity|exact L].
Qed.

End Scorer.

Section ScorerRuns.
Local Existing Instance AsciiText.ascii_text.

Lemma own_text_scores_one_witness :
  let idx := {|
    SearchIndex.Item := "Go Lang"; SearchIndex.NormalizedText := "Go Lang";
    SearchIndex.LowercaseText := "go lang"; SearchIndex.Words := ["go"; "lang"];
    SearchIndex.WordSet := createWordSet ["go"; "lang"];
    SearchIndex.Trigrams := createCharNgrams "go lang" 3;
    SearchIndex.Bigrams := createCharNgrams "go lang" 2;
    SearchIndex.FirstLetters := "gl"; SearchIndex.Acronym := "gl";
    SearchIndex.TextLength := 7 |} in
  FinalScore (queryScore "Go Lang" idx) = 1%float.
Proof.
  intros idx.
  change (FinalScore (queryScore (GetSearchText (SearchIndex.Item idx)) idx) = 1%float).
  apply (own_text_scores_one ["Go Lang"] 0.3%float false idx).
  - vm_compute. by left.
  - vm_compute. lia.
Defined.

(** C1 as stated, without the bonuses, fails: for the query "a" against the
    item "a" the final score is 1.0 and the weighted mean is 4.91/5. *)
Lemma final_score_not_weighted_mean :
  ¬ ∀ (query : string) (idx : SearchIndex.t string),
      FinalScore (queryScore query idx)
      = weighted_mean (weighted (queryScore query idx)).
Proof.
  intros E.
  pose (s := NewImprovedSearcher ["a"] 0.3%float false).
  destruct (searchIndex s) as [|idx l] eqn:Es; [done|].
  specialize (E "a" idx). injection Es as <- _.
  apply (f_equal (λ x, F64.gt x 0.99)) in E. vm_compute in E. done.
Qed.

(** C4: the acronym of "The Lord of the Rings" is stored as "lr", the query
    "lotr" has an empty acronym, and the acronym component is 0. *)
Lemma acronym_lotr :
  let s := NewImprovedSearcher ["The Lord of the Rings"] 0.3%float false in
  map SearchIndex.Acronym (searchIndex s) = ["lr"] ∧
  extractAcronym "lotr" = "" ∧ extractAcronym "LOTR" = "l" ∧
  map (λ idx, AcronymMatch (queryScore "lotr" idx)) (searchIndex s) = [0%float] ∧
  map (λ idx, AcronymMatch (queryScore "LOTR" idx)) (searchIndex s) = [0%float].
Proof. by vm_compute. Qed.

End ScorerRuns.

(** ** The state monad *)

Section Monad.
Context {S : Type}.

(** A computation that leaves the receiver as it found it. *)
Definition readonly {A} (m : M S A) : Prop := ∀ s, (m s).2 = s.

Lemma readonly_ret {A} (a : A) : readonly (mret a : M S A).
Proof. by intros s. Qed.

Lemma readonly_gets {A} (f : S → A) : readonly (gets f).
Proof. by intros s. Qed.

Lemma readonly_bind {A B} (m : M S A) (k : A → M S B) :
  readonly m → (∀ a, readonly (k a)) → readonly (m ≫= k).
Proof.
  intros Hm Hk s. unfold mbind, M_bind. specialize (Hm s).
  destruct (m s) as [a s']. simpl in Hm. subst s'. apply Hk.
Qed.

Lemma readonly_foldM {A B} (body : B → A → M S B) l :
  (∀ acc x, readonly (body acc x)) → ∀ acc, readonly (foldM body acc l).
Proof.
  intros Hb. induction l as [|x l IH]; intros acc; simpl.
  - apply readonly_ret.
  - apply readonly_bind; auto.
Qed.

(** Running a bind whose first computation is known. *)
Lemma bind_run {A B} (m : M S A) (k : A → M S B) s a s' :
  m s = (a, s') → (m ≫= k) s = k a s'.
Proof. intros E. unfold mbind, M_bind. by rewrite E. Qed.

Lemma foldM_run {A B} (body : B → A → M S B) (f : B → A → B) s l :
  (∀ acc x, body acc x s = (f acc x, s)) →
  ∀ acc, foldM body acc l s = (foldl f acc l, s).
Proof.
  intros Hb. induction l as [|x l IH]; intros acc; simpl; [done|].
  by rewrite (bind_run _ _ _ _ _ (Hb acc x)).
Qed.

End Monad.

(** ** Insertion sort, one behaviour of [sort.Slice] *)

Module InsertionSort.
Section Sort.
Context {A : Type} (less : A → A → bool).

Fixpoint insert (x : A) (l : list A) : list A :=
  match l with
  | [] => [x]
  | y :: l' => if less x y then x :: l else y :: insert x l'
  end.

Definition sort (l : list A) : list A := foldr insert [] l.

Lemma insert_perm x l : insert x l ≡ₚ x :: l.
Proof.
  induction l as [|y l IH]; simpl; [done|].
  destruct (less x y); [done|]. rewrite IH. apply Permutation_swap.
Qed.

Lemma sort_perm l : sort l ≡ₚ l.
Proof.
  induction l as [|x l IH]; simpl; [done|]. by rewrite insert_perm, IH.
Qed.

Lemma insert_sorted (L : list A) x l :
  strict_weak_on less L → x ∈ L → l ⊆ L →
  StronglySorted (λ a b, less b a = false) l →
  StronglySorted (λ a b, less b a = false) (insert x l).
Proof.
  intros (Irr & Tr & Neg) Hx. induction l as [|y l IH]; intros Hl Hs; simpl.
  - repeat constructor.
  - apply StronglySorted_inv in Hs as [Hs Hy].
    assert (y ∈ L) by set_solver. assert (l ⊆ L) by set_solver.
    destruct (less x y) eqn:E.
    + assert (less y x = false) as Eyx.
      { destruct (less y x) eqn:E'; [|done].
        rewrite <- (Irr x Hx). symmetry. by apply (Tr x y x). }
      constructor; [by constructor|]. constructor; [done|].
      apply Forall_forall. intros z Hz. rewrite Forall_forall in Hy.
      apply (Neg z y x); auto.
    + constructor; [by apply IH|].
      rewrite insert_perm. constructor; [done|done].
Qed.

Lemma sort_sorted l :
  strict_weak_on less l → StronglySorted (λ a b, less b a = false) (sort l).
Proof.
  intros Hl. cut (∀ k, k ⊆ l → StronglySorted (λ a b, less b a = false) (sort k)).
  { intros C. by apply C. }
  induction k as [|x k IH]; intros Hk; simpl; [constructor|].
  apply (insert_sorted l); [done|set_solver| |apply IH; set_solver].
  intros z Hz. apply Hk. right. by rewrite <- (sort_perm k).
Qed.

End Sort.

#[export] Instance insertion_sort : GoSort := {|
  sort_Slice A l less := sort less l;
  sort_Slice_perm A l less := sort_perm less l;
  sort_Slice_sorted A l less := sort_sorted less l
|}.

End InsertionSort.

(** ** Search *)

Section Search.
Context `{GoText} `{GoSort} {T : Type} `{Searchable T}.
Implicit Types (req : SearchRequest.t T) (s : ImprovedSearcher T).

(** The stages of [Search] on the request [req] in the state [s]. *)
Definition candidates req s : list (SearchIndex.t T) :=
  (filterItems (SearchRequest.Filters req) s).1.

Definition survivors req s : list (scoredResult T) :=
  let lowercaseQuery := ToLower (normalizeText (SearchRequest.Query req)) in
  let queryWords := extractWords lowercaseQuery in
  (scoreCandidates (candidates req s) lowercaseQuery queryWords
     (createWordSet queryWords) (createCharNgrams lowercaseQuery 3)
     (createCharNgrams lowercaseQuery 2)
     (extractAcronym (SearchRequest.Query req)) s).1.

Definition ranked req s : list (scoredResult T) :=
  sort_Slice (survivors req s) (λ a b, F64.gt (score a) (score b)).

(** The entry of [results] for the candidate [idx]. *)
Definition scored req (idx : SearchIndex.t T) : scoredResult T :=
  let c := queryScore (SearchRequest.Query req) idx in
  {| index := idx; score := FinalScore c; components := c |}.

(** The items an outcome carries. *)
Definition outcome_items (o : Outcome T) : list T :=
  match o with
  | Single r => option_list (SearchResponse.Item r)
  | Multi m => omap SearchResponse.Item (MultiSearchResponse.Results m)
  end.

Definition debug_of req s (result : scoredResult T) : option DebugInfo.t :=
  if debugMode s
     || match SearchRequest.Debug req with Some d => d | None => false end
  then Some {| DebugInfo.QueryNormalized := normalizeText (SearchRequest.Query req);
               DebugInfo.ScoreComponents := Some (components result);
               DebugInfo.FilteredCandidates := length (candidates req s);
               DebugInfo.TotalCandidates := length (searchIndex s) |}
  else None.

Definition response_at req s (i : nat) (result : scoredResult T)
  : SearchResponse.t T :=
  {| SearchResponse.Item := Some (SearchIndex.Item (index result));
     SearchResponse.Similarity := score result;
     SearchResponse.Message :=
       "Rank " +:+ pretty (i + 1) +:+ " with " +:+
       format_f2 (score result * 100)%float +:+ "% similarity";
     SearchResponse.Error := "";
     SearchResponse.Debug := debug_of req s result |}.

Definition best_response req s (best : scoredResult T) : SearchResponse.t T :=
  {| SearchResponse.Item := Some (SearchIndex.Item (index best));
     SearchResponse.Similarity := score best;
     SearchResponse.Message :=
       "Found item with " +:+ format_f2 (score best * 100)%float
       +:+ "% similarity";
     SearchResponse.Error := "";
     SearchResponse.Debug := debug_of req s best |}.

Lemma foldl_append_if {A B} (P : A → bool) (f : A → B) l : ∀ acc,
  foldl (λ acc x, if P x then acc ++ [f x] else acc) acc l
  = acc ++ map f (List.filter P l).
Proof.
  induction l as [|x l IH]; intros acc; simpl; [by rewrite app_nil_r|].
  rewrite IH. destruct (P x); [|done]. by rewrite <- app_assoc.
Qed.

Lemma filterItems_run filter s :
  filterItems filter s
  = (match filter with
     | None => searchIndex s
     | Some f => List.filter (λ idx, Matches f (SearchIndex.Item idx)) (searchIndex s)
     end, s).
Proof.
  destruct filter as [f|]; [|done]. unfold filterItems.
  rewrite (bind_run _ _ s (searchIndex s) s) by done.
  unfold mret, M_ret. f_equal.
  rewrite (foldl_append_if (λ idx, Matches f (SearchIndex.Item idx)) id).
  by rewrite map_id.
Qed.

Lemma filterItems_candidates req s :
  filterItems (SearchRequest.Filters req) s = (candidates req s, s).
Proof. unfold candidates. by rewrite filterItems_run. Qed.

Lemma candidates_spec req s :
  candidates req s
  = match SearchRequest.Filters req with
    | None => searchIndex s
    | Some f => List.filter (λ idx, Matches f (SearchIndex.Item idx)) (searchIndex s)
    end.
Proof. unfold candidates. by rewrite filterItems_run. Qed.

Lemma scoreCandidates_run cands q ws wset tri bi acr s :
  scoreCandidates cands q ws wset tri bi acr s
  = (map (λ idx, let c := calculateScore idx q ws wset tri bi acr in
                 {| index := idx; score := FinalScore c; components := c |})
       (List.filter (λ idx,
          F64.ge (FinalScore (calculateScore idx q ws wset tri bi acr))
                 (minSimilarity s * 0.5)) cands), s).
Proof.
  unfold scoreCandidates.
  erewrite foldM_run; [by rewrite foldl_append_if|].
  intros acc idx. cbv zeta.
  rewrite (bind_run _ _ s (minSimilarity s) s) by done.
  by destruct (F64.ge _ _).
Qed.

Lemma survivors_spec req s :
  survivors req s
  = map (scored req)
      (List.filter (λ idx, F64.ge (FinalScore (queryScore (SearchRequest.Query req) idx))
                                  (minSimilarity s * 0.5))
         (candidates req s)).
Proof. unfold survivors. cbv zeta. by rewrite scoreCandidates_run. Qed.

Lemma scoreCandidates_survivors req s :
  let lowercaseQuery := ToLower (normalizeText (SearchRequest.Query req)) in
  let queryWords := extractWords lowercaseQuery in
  scoreCandidates (candidates req s) lowercaseQuery queryWords
     (createWordSet queryWords) (createCharNgrams lowercaseQuery 3)
     (createCharNgrams lowercaseQuery 2)
     (extractAcronym (SearchRequest.Query req)) s
  = (survivors req s, s).
Proof. cbv zeta. unfold survivors. cbv zeta. by rewrite scoreCandidates_run. Qed.

Lemma debugInfo_run req s result :
  debugInfo req (normalizeText (SearchRequest.Query req)) result
            (length (candidates req s)) s
  = (debug_of req s result, s).
Proof.
  unfold debugInfo, debug_of.
  rewrite (bind_run _ _ s (debugMode s) s) by done.
  destruct (debugMode s || _); [|done].
  by rewrite (bind_run _ _ s (length (searchIndex s)) s).
Qed.

Lemma foldl_lookup_imap {A B} (g : nat → A → B) (l : list A) k : ∀ acc,
  foldl (λ acc i, match l !! i with
                  | Some x => acc ++ [g i x]
                  | None => acc
                  end) acc (seq 0 k)
  = acc ++ imap g (take k l).
Proof.
  induction k as [|k IH]; intros acc; [by rewrite app_nil_r|].
  rewrite seq_S, foldl_app, IH. simpl.
  destruct (l !! k) as [x|] eqn:E.
  - rewrite (take_S_r _ _ _ E), imap_app, <- app_assoc. simpl.
    rewrite length_take_le, Nat.add_0_r; [done|].
    apply lookup_lt_Some in E. lia.
  - apply lookup_ge_None in E. by rewrite !take_ge by lia.
Qed.

(** [Search], stage by stage. *)
Lemma Search_run req s :
  Search req s
  = (let Query := SearchRequest.Query req in
     if (TrimSpace Query =? "")%string then
       Single (error_response "Query cannot be empty")
     else if length (candidates req s) =? 0 then
       Single (error_response
         match SearchRequest.Filters req with
         | Some f => "No items found matching filter: " +:+ Description f
         | None => "No items found matching the filter criteria"
         end)
     else
       let topN := clampTopN (SearchRequest.TopN req) (length (ranked req s)) in
       if (topN =? 0)%Z then
         Single (error_response ("No matches found for '" +:+ Query +:+ "'"))
       else if (topN >? 1)%Z then
         Multi
           {| MultiSearchResponse.Results :=
                imap (response_at req s) (take (Z.to_nat topN) (ranked req s));
              MultiSearchResponse.Query := Query;
              MultiSearchResponse.TotalFound := length (candidates req s);
              MultiSearchResponse.Filters := SearchRequest.Filters req;
              MultiSearchResponse.Message :=
                "Found " +:+ pretty (length (candidates req s)) +:+ " items"
                +:+ match SearchRequest.Filters req with
                    | Some f => " with filter: " +:+ Description f
                    | None => ""
                    end
                +:+ " matching '" +:+ Query +:+ "'" |}
       else
         match ranked req s with
         | best :: _ => Single (best_response req s best)
         | [] => Single (error_response "")
         end, s).
Proof.
  unfold Search. cbv zeta.
  destruct (TrimSpace (SearchRequest.Query req) =? "")%string; [done|].
  rewrite (bind_run _ _ _ _ _ (filterItems_candidates req s)).
  destruct (length (candidates req s) =? 0); [done|].
  rewrite (bind_run _ _ _ _ _ (scoreCandidates_survivors req s)).
  fold (ranked req s).
  destruct (clampTopN _ _ =? 0)%Z; [done|].
  destruct (clampTopN _ _ >? 1)%Z.
  - erewrite bind_run; [reflexivity|].
    erewrite foldM_run.
    + by rewrite (foldl_lookup_imap (response_at req s)).
    + intros acc i. simpl. destruct (ranked req s !! i) as [result|]; [|done].
      by rewrite (bind_run _ _ _ _ _ (debugInfo_run req s result)).
  - destruct (ranked req s) as [|best rest]; [done|].
    by rewrite (bind_run _ _ _ _ _ (debugInfo_run req s best)).
Qed.

(** *** No method called by [Search] assigns to the searcher *)

Lemma readonly_filterItems filter : readonly (filterItems (T:=T) filter).
Proof.
  destruct filter; [|apply readonly_gets].
  apply readonly_bind; [apply readonly_gets|intros; apply readonly_ret].
Qed.

Lemma readonly_scoreCandidates cands q ws wset tri bi acr :
  readonly (scoreCandidates (T:=T) cands q ws wset tri bi acr).
Proof.
  apply readonly_foldM. intros acc idx. cbv zeta.
  apply readonly_bind; [apply readonly_gets|].
  intros minSim. destruct (F64.ge _ _); apply readonly_ret.
Qed.

Lemma readonly_debugInfo req nq (result : scoredResult T) n :
  readonly (debugInfo req nq result n).
Proof.
  apply readonly_bind; [apply readonly_gets|]. intros d.
  destruct (d || _); [|apply readonly_ret].
  apply readonly_bind; [apply readonly_gets|intros; apply readonly_ret].
Qed.

Lemma readonly_Search req : readonly (Search req).
Proof.
  unfold Search. cbv zeta.
  destruct (TrimSpace _ =? "")%string; [apply readonly_ret|].
  apply readonly_bind; [apply readonly_filterItems|]. intros cands.
  destruct (length cands =? 0); [apply readonly_ret|].
  apply readonly_bind; [apply readonly_scoreCandidates|]. intros results.
  destruct (clampTopN _ _ =? 0)%Z; [apply readonly_ret|].
  destruct (clampTopN _ _ >? 1)%Z.
  - apply readonly_bind; [|intros; apply readonly_ret].
    apply readonly_foldM. intros acc i.
    destruct (_ !! i); [|apply readonly_ret].
    apply readonly_bind; [apply readonly_debugInfo|intros; apply readonly_ret].
  - destruct (sort_Slice _ _); [apply readonly_ret|].
    apply readonly_bind; [apply readonly_debugInfo|intros; apply readonly_ret].
Qed.

(** C10: [Search] leaves the items, the search index, the threshold and
    the debug flag of the searcher as they were. *)
Theorem Search_state_unchanged req s :
  let s' := (Search req s).2 in
  items s' = items s ∧ searchIndex s' = searchIndex s ∧
  minSimilarity s' = minSimilarity s ∧ debugMode s' = debugMode s.
Proof. intros s'. unfold s'. by rewrite readonly_Search. Qed.

(** *** Threshold, ranking and clamping *)

Lemma ranked_perm req s : ranked req s ≡ₚ survivors req s.
Proof. apply sort_Slice_perm. Qed.

Lemma elem_of_survivors req s r :
  r ∈ survivors req s ↔
  ∃ idx, r = scored req idx ∧ idx ∈ candidates req s ∧
         F64.ge (FinalScore (queryScore (SearchRequest.Query req) idx))
                (minSimilarity s * 0.5) = true.
Proof.
  rewrite survivors_spec, list_elem_of_fmap.
  split; intros (idx & -> & I); exists idx; (split; [done|]).
  - by apply list_elem_of_In, filter_In in I as [I%list_elem_of_In P].
  - apply list_elem_of_In, filter_In. by rewrite <- list_elem_of_In.
Qed.

Lemma clampTopN_spec t n :
  clampTopN t n
  = if n is 0 then 0%Z
    else Z.max 1 (Z.min (default 1%Z t) (Z.min 10 (Z.of_nat n))).
Proof.
  unfold clampTopN. cbv zeta.
  destruct t as [t|]; rewrite !Z.gtb_ltb; [change (default 1%Z (Some t)) with t
                      |change (default 1%Z None) with 1%Z].
  - destruct (Z.ltb_spec t 1); [|destruct (Z.ltb_spec 10 t)];
      match goal with
      | |- context [(?a <? ?b)%Z] => destruct (Z.ltb_spec a b)
      end; destruct n; lia.
  - destruct (Z.ltb_spec (Z.of_nat n) 1); destruct n; lia.
Qed.

(** When no candidate passes the threshold test, the outcome is the error
    that names the query. *)
Lemma Search_no_survivor req s :
  TrimSpace (SearchRequest.Query req) ≠ "" → candidates req s ≠ [] →
  (∀ idx, idx ∈ candidates req s →
     F64.ge (FinalScore (queryScore (SearchRequest.Query req) idx))
            (minSimilarity s * 0.5) = false) →
  (Search req s).1
  = Single (error_response
      ("No matches found for '" +:+ SearchRequest.Query req +:+ "'")).
Proof.
  intros Q C B. rewrite Search_run. cbv zeta. cbn [fst].
  destruct (String.eqb_spec (TrimSpace (SearchRequest.Query req)) ""); [done|].
  destruct (candidates req s) as [|c cs] eqn:Ec; [done|]. cbn [length Nat.eqb].
  assert (survivors req s = []) as Es.
  { destruct (survivors req s) as [|r rs] eqn:Er; [done|].
    assert (r ∈ survivors req s) as I by (rewrite Er; left).
    apply elem_of_survivors in I as (idx & _ & I & P).
    rewrite Ec in I. rewrite (B idx I) in P. done. }
  assert (ranked req s = []) as ->.
  { apply Permutation_nil_r. by rewrite ranked_perm, Es. }
  by rewrite clampTopN_spec.
Qed.

(** C2: a scored candidate is in the ranked list exactly when its final
    score is at least half of minSimilarity; when no candidate passes that
    test, and so when every candidate scores below the threshold, Search
    returns the error naming the query, without an item. *)
Theorem coarse_threshold req s :
  (∀ idx, idx ∈ candidates req s →
     scored req idx ∈ ranked req s ↔
     F64.ge (FinalScore (queryScore (SearchRequest.Query req) idx))
            (minSimilarity s * 0.5) = true) ∧
  (TrimSpace (SearchRequest.Query req) ≠ "" → candidates req s ≠ [] →
   (∀ idx, idx ∈ candidates req s →
      F64.ge (FinalScore (queryScore (SearchRequest.Query req) idx))
             (minSimilarity s * 0.5) = false) →
   (Search req s).1
   = Single (error_response
       ("No matches found for '" +:+ SearchRequest.Query req +:+ "'"))
   ∧ outcome_items (Search req s).1 = []) ∧
  (TrimSpace (SearchRequest.Query req) ≠ "" → candidates req s ≠ [] →
   (∀ idx, idx ∈ candidates req s →
      (FinalScore (queryScore (SearchRequest.Query req) idx)
       <? minSimilarity s * 0.5)%float = true) →
   (Search req s).1
   = Single (error_response
       ("No matches found for '" +:+ SearchRequest.Query req +:+ "'"))
   ∧ outcome_items (Search req s).1 = []).
Proof.
  split; [|split].
  - intros idx I. rewrite ranked_perm, elem_of_survivors. split.
    + intros (idx' & E & _ & P). apply (f_equal index) in E. simpl in E. by subst.
    + intros P. by exists idx.
  - intros Q C B. by rewrite (Search_no_survivor req s Q C B).
  - intros Q C B. rewrite (Search_no_survivor req s Q C); [done|].
    intros idx I. by apply F64Facts.lt_not_ge, B.
Qed.

Lemma StronglySorted_impl_on {A} (R1 R2 : relation A) l :
  (∀ x y, x ∈ l → y ∈ l → R1 x y → R2 x y) →
  StronglySorted R1 l → StronglySorted R2 l.
Proof.
  intros Himp Hs. induction Hs as [|x l Hs IH Hx]; constructor.
  - apply IH. intros y z Hy Hz. apply Himp; by right.
  - rewrite Forall_forall in *. intros y Hy. apply Himp; [left|by right|auto].
Qed.

Lemma survivors_num req s r : r ∈ survivors req s → F64Facts.num (score r).
Proof.
  intros (idx & -> & _ & P)%elem_of_survivors. by apply F64Facts.ge_num in P.
Qed.

(** The ranked list is in descending order of score. *)
Lemma ranked_descending req s :
  StronglySorted (λ a b, (score b <=? score a)%float = true) (ranked req s).
Proof.
  apply (StronglySorted_impl_on
           (λ a b, F64.gt (score b) (score a) = false)).
  - intros a b Ia Ib. apply F64Facts.gt_false_le;
      apply (survivors_num req s); by rewrite <- ranked_perm.
  - apply (sort_Slice_sorted _ (survivors req s)
             (λ a b, F64.gt (score a) (score b))).
    split; [|split].
    + intros x _. apply F64Facts.gt_irrefl.
    + intros x y z _ _ _. apply F64Facts.gt_trans.
    + intros x y z Ix Iy Iz. apply F64Facts.gt_neg_trans; by eapply survivors_num.
Qed.

Lemma similarity_imap req s l :
  SearchResponse.Similarity <$> imap (response_at req s) l = score <$> l.
Proof.
  apply list_eq. intros i.
  rewrite !list_lookup_fmap, list_lookup_imap. by destruct (l !! i).
Qed.

Lemma items_imap req s l :
  omap SearchResponse.Item (imap (response_at req s) l)
  = (λ r, SearchIndex.Item (index r)) <$> l.
Proof.
  assert (∀ g : nat → nat,
    omap SearchResponse.Item (imap (λ i, response_at req s (g i)) l)
    = (λ r, SearchIndex.Item (index r)) <$> l) as G.
  { induction l as [|r l IH]; intros g; [done|].
    rewrite imap_cons. simpl. f_equal. apply (IH (g ∘ S)). }
  apply (G id).
Qed.

(** C5: when a candidate survives the coarse threshold, topN (1 when
    absent) is clamped into [1, min(10, survivors)]; a clamped value of 1
    gives the single best result, any other value a multi-result outcome
    with exactly that many entries, the first of the ranking, in descending
    order of score. *)
Theorem topN_clamped req s :
  TrimSpace (SearchRequest.Query req) ≠ "" → survivors req s ≠ [] →
  let n := Z.of_nat (length (survivors req s)) in
  let topN := clampTopN (SearchRequest.TopN req) (length (ranked req s)) in
  topN = Z.max 1 (Z.min (default 1%Z (SearchRequest.TopN req)) (Z.min 10 n)) ∧
  (1 ≤ topN ≤ Z.min 10 n)%Z ∧
  (topN = 1%Z →
   ∃ best, head (ranked req s) = Some best ∧
           (Search req s).1 = Single (best_response req s best)) ∧
  (topN ≠ 1%Z →
   ∃ m, (Search req s).1 = Multi m ∧
        Z.of_nat (length (MultiSearchResponse.Results m)) = topN ∧
        SearchResponse.Similarity <$> MultiSearchResponse.Results m
        = score <$> take (Z.to_nat topN) (ranked req s) ∧
        StronglySorted (λ x y, (y <=? x)%float = true)
          (SearchResponse.Similarity <$> MultiSearchResponse.Results m)).
Proof.
  intros Q NE n topN.
  assert (length (ranked req s) = length (survivors req s)) as EL
    by (by rewrite ranked_perm).
  assert (0 < length (survivors req s)) as Pos
    by (destruct (survivors req s); [done|simpl; lia]).
  assert (topN = Z.max 1 (Z.min (default 1%Z (SearchRequest.TopN req)) (Z.min 10 n)))
    as Etop.
  { unfold topN. rewrite clampTopN_spec, EL.
    by destruct (length (survivors req s)); [lia|]. }
  split; [done|]. split; [lia|].
  assert (candidates req s ≠ []) as NC.
  { intros E. rewrite survivors_spec, E in NE. done. }
  assert ((Search req s).1
          = if (topN >? 1)%Z
            then Multi
              {| MultiSearchResponse.Results :=
                   imap (response_at req s) (take (Z.to_nat topN) (ranked req s));
                 MultiSearchResponse.Query := SearchRequest.Query req;
                 MultiSearchResponse.TotalFound := length (candidates req s);
                 MultiSearchResponse.Filters := SearchRequest.Filters req;
                 MultiSearchResponse.Message :=
                   "Found " +:+ pretty (length (candidates req s)) +:+ " items"
                   +:+ match SearchRequest.Filters req with
                       | Some f => " with filter: " +:+ Description f
                       | None => ""
                       end
                   +:+ " matching '" +:+ SearchRequest.Query req +:+ "'" |}
            else match ranked req s with
                 | best :: _ => Single (best_response req s best)
                 | [] => Single (error_response "")
                 end) as ES.
  { rewrite Search_run. cbv zeta. cbn [fst]. fold topN.
    destruct (String.eqb_spec (TrimSpace (SearchRequest.Query req)) ""); [done|].
    destruct (candidates req s); [done|]. cbn [length Nat.eqb].
    destruct (Z.eqb_spec topN 0); [lia|done]. }
  split.
  - intros E1. rewrite ES, E1. simpl.
    destruct (ranked req s) as [|best rest]; [simpl in EL; lia|]. by exists best.
  - intros N1. rewrite ES.
    destruct (Z.gtb_spec topN 1); [|lia].
    eexists. split; [reflexivity|]. simpl.
    rewrite length_imap, length_take_le by lia.
    split; [lia|]. rewrite similarity_imap. split; [done|].
    apply (StronglySorted_fmap _ (λ a b, (score b <=? score a)%float = true));
      [done|].
    apply (StronglySorted_app_1_l _ _ (drop (Z.to_nat topN) (ranked req s))).
    rewrite take_drop. apply ranked_descending.
Qed.

(** Every item of an outcome is the item of a ranked candidate. *)
Lemma outcome_items_ranked req s x :
  x ∈ outcome_items (Search req s).1 →
  ∃ r, r ∈ ranked req s ∧ x = SearchIndex.Item (index r).
Proof.
  rewrite Search_run. cbv zeta. cbn [fst].
  repeat match goal with
  | |- context [if ?b then _ else _] => destruct b
  end; simpl; try by intros ?%elem_of_nil.
  - rewrite items_imap. intros (r & -> & I)%list_elem_of_fmap.
    exists r. split; [|done]. by eapply subseteq_take.
  - destruct (ranked req s) as [|best rest]; simpl; [by intros ?%elem_of_nil|].
    intros ->%list_elem_of_singleton. exists best. split; [left|done].
Qed.

(** C9: with a filter, the candidates that are scored all satisfy it, and
    so does every item of the outcome. *)
Theorem filter_respected req s f :
  SearchRequest.Filters req = Some f →
  (∀ idx, idx ∈ candidates req s → Matches f (SearchIndex.Item idx) = true) ∧
  (∀ r, r ∈ survivors req s → index r ∈ candidates req s) ∧
  (∀ x, x ∈ outcome_items (Search req s).1 → Matches f x = true).
Proof.
  intros F.
  assert (∀ idx, idx ∈ candidates req s → Matches f (SearchIndex.Item idx) = true)
    as C.
  { intros idx. rewrite candidates_spec, F.
    by intros [_ P]%list_elem_of_In%filter_In. }
  assert (∀ r, r ∈ survivors req s → index r ∈ candidates req s) as S.
  { by intros r (idx & -> & I & _)%elem_of_survivors. }
  split; [done|]. split; [done|].
  intros x (r & I & ->)%outcome_items_ranked. apply C, S. by rewrite <- ranked_perm.
Qed.

End Search.

(** ** Runs on ASCII titles *)

Section SearchRuns.
Local Existing Instance AsciiText.ascii_text.
Local Existing Instance InsertionSort.insertion_sort.

Definition books : ImprovedSearcher string :=
  NewImprovedSearcher
    ["The Go Programming Language"; "The Lord of the Rings"; "Going Postal"]
    0.3%float false.

Definition starts_with_the : Filter string :=
  {| Matches item := HasPrefix item "The";
     Description := "title starts with The" |}.

Definition request (query : string) (filter : option (Filter string))
    (topN : option Z) : SearchRequest.t string :=
  {| SearchRequest.Query := query; SearchRequest.Filters := filter;
     SearchRequest.TopN := topN; SearchRequest.Debug := None |}.

Lemma topN_clamped_witness :
  let req := request "the" None (Some 5%Z) in
  let n := Z.of_nat (length (survivors req books)) in
  let topN := clampTopN (SearchRequest.TopN req) (length (ranked req books)) in
  topN = Z.max 1 (Z.min (default 1%Z (SearchRequest.TopN req)) (Z.min 10 n)) ∧
  (1 ≤ topN ≤ Z.min 10 n)%Z ∧
  (topN = 1%Z →
   ∃ best, head (ranked req books) = Some best ∧
           (Search req books).1 = Single (best_response req books best)) ∧
  (topN ≠ 1%Z →
   ∃ m, (Search req books).1 = Multi m ∧
        Z.of_nat (length (MultiSearchResponse.Results m)) = topN ∧
        SearchResponse.Similarity <$> MultiSearchResponse.Results m
        = score <$> take (Z.to_nat topN) (ranked req books) ∧
        StronglySorted (λ x y, (y <=? x)%float = true)
          (SearchResponse.Similarity <$> MultiSearchResponse.Results m)).
Proof.
  apply (topN_clamped (request "the" None (Some 5%Z)) books); by vm_compute.
Defined.

Lemma filter_respected_witness :
  let req := request "go" (Some starts_with_the) (Some 5%Z) in
  (∀ idx, idx ∈ candidates req books →
     Matches starts_with_the (SearchIndex.Item idx) = true) ∧
  (∀ r, r ∈ survivors req books → index r ∈ candidates req books) ∧
  (∀ x, x ∈ outcome_items (Search req books).1 →
     Matches starts_with_the x = true).
Proof.
  apply (filter_respected (request "go" (Some starts_with_the) (Some 5%Z)) books
           starts_with_the).
  reflexivity.
Defined.

(** Two titles pass the threshold for "the"; asking for five returns both. *)
Example search_the :
  match (Search (request "the" None (Some 5%Z)) books).1 with
  | Multi m =>
      map SearchResponse.Item (MultiSearchResponse.Results m)
      = [Some "The Lord of the Rings"; Some "The Go Programming Language"]
  | Single _ => False
  end.
Proof. by vm_compute. Qed.

(** No title reaches half the threshold: the error names the query. *)
Example search_no_match :
  (Search (request "zzzzzzzzzzzzzzzzzzzzzzzzzzzzzzzzzzzzzzz" None None) books).1
  = Single (error_response
      "No matches found for 'zzzzzzzzzzzzzzzzzzzzzzzzzzzzzzzzzzzzzzz'").
Proof. by vm_compute. Qed.

(** A score between half the threshold and the threshold still ranks:
    "Going Postal" scores about 0.153 for "gopher", with minSimilarity 0.3. *)
Example search_below_minSimilarity :
  match (Search (request "gopher" None None) books).1 with
  | Single r =>
      SearchResponse.Item r = Some "Going Postal" ∧
      F64.ge (SearchResponse.Similarity r) (minSimilarity books * 0.5) = true ∧
      F64.gt (minSimilarity books) (SearchResponse.Similarity r) = true
  | Multi _ => False
  end.
Proof. by vm_compute. Qed.

(** The setters do assign to the searcher. *)
Example SetMinSimilarity_assigns :
  minSimilarity (SetMinSimilarity 0.5%float books).2 = 0.5%float ∧
  minSimilarity (Search (request "the" None None) books).2 = 0.3%float.
Proof. by vm_compute. Qed.

End SearchRuns.


(** * Further properties of the code *)

(** ** Levenshtein distance: zero, bounds, appended text *)

Section LevenshteinMore.

Lemma lev_zero s : ∀ t, lev s t = 0 → s = t.
Proof.
  induction s as [|x s IH]; intros t E.
  - rewrite lev_nil_l in E. by destruct t.
  - destruct t as [|y t]; [by rewrite lev_nil_r in E|].
    rewrite lev_cons in E.
    assert (lev s t = 0 ∧ cost x y = 0) as [E1 E2] by lia.
    unfold cost in E2. case_decide; [|done]. subst. f_equal. by apply IH.
Qed.

Lemma lev_max s : ∀ t, lev s t ≤ Nat.max (length s) (length t).
Proof.
  induction s as [|x s IH]; intros t.
  - rewrite lev_nil_l. lia.
  - destruct t as [|y t]; [rewrite lev_nil_r; lia|].
    rewrite lev_cons. specialize (IH t).
    assert (cost x y ≤ 1) by (unfold cost; case_decide; lia). simpl. lia.
Qed.

Lemma lev_insert s y t : lev s (y :: t) ≤ lev s t + 1.
Proof.
  destruct s as [|x s]; [rewrite !lev_nil_l; simpl; lia|]. rewrite lev_cons. lia.
Qed.

Lemma lev_app_l t w : lev t (w ++ t) = length w.
Proof.
  apply Nat.le_antisymm.
  - induction w as [|c w IH]; [by rewrite app_nil_l, lev_refl|].
    rewrite <- app_comm_cons. pose proof (lev_insert t c (w ++ t)). simpl. lia.
  - pose proof (lev_lower t (w ++ t)) as [_ L]. rewrite length_app in L. lia.
Qed.

Lemma lev_app_r t w : lev t (t ++ w) = length w.
Proof.
  apply Nat.le_antisymm.
  - induction t as [|c t IH]; [by rewrite app_nil_l, lev_nil_l|].
    rewrite <- app_comm_cons, lev_cons, cost_refl. lia.
  - pose proof (lev_lower t (t ++ w)) as [_ L]. rewrite length_app in L. lia.
Qed.

Lemma chars_app (s t : string) :
  list_ascii_of_string (s +:+ t) = list_ascii_of_string s ++ list_ascii_of_string t.
Proof.
  induction s as [|c s IH]; [done|]. rewrite app_String. simpl. by rewrite IH.
Qed.

Lemma chars_inj (s t : string) :
  list_ascii_of_string s = list_ascii_of_string t → s = t.
Proof.
  intros E. rewrite <- (string_of_list_ascii_of_string s),
    <- (string_of_list_ascii_of_string t). by rewrite E.
Qed.

(** X1: the distance is 0 only between equal strings. *)
Theorem calculateLevenshteinDistance_zero_iff (a b : string) :
  calculateLevenshteinDistance a b = 0 ↔ a = b.
Proof.
  rewrite calculateLevenshteinDistance_lev. split.
  - intros E%lev_zero. apply chars_inj.
    rewrite <- (rev_involutive (list_ascii_of_string a)), E.
    apply rev_involutive.
  - intros ->. apply lev_refl.
Qed.

(** X2: the distance lies between the difference of the lengths and the
    greater length, and the distance to the empty string is the length. *)
Theorem calculateLevenshteinDistance_bounds (a b : string) :
  len a - len b ≤ calculateLevenshteinDistance a b ∧
  len b - len a ≤ calculateLevenshteinDistance a b ∧
  calculateLevenshteinDistance a b ≤ Nat.max (len a) (len b) ∧
  calculateLevenshteinDistance a "" = len a ∧
  calculateLevenshteinDistance "" b = len b.
Proof.
  rewrite !calculateLevenshteinDistance_lev.
  pose proof (lev_lower (rev (list_ascii_of_string a)) (rev (list_ascii_of_string b)))
    as [L1 L2].
  pose proof (lev_max (rev (list_ascii_of_string a)) (rev (list_ascii_of_string b)))
    as U.
  rewrite !length_rev, !length_chars in L1, L2, U.
  change (rev (list_ascii_of_string "")) with (@nil ascii).
  rewrite lev_nil_r, lev_nil_l, !length_rev, !length_chars.
  repeat split; lia.
Qed.

(** X3: text added at the end or at the start of a string costs exactly
    its length. *)
Theorem calculateLevenshteinDistance_append (s x : string) :
  calculateLevenshteinDistance s (s +:+ x) = len x ∧
  calculateLevenshteinDistance s (x +:+ s) = len x.
Proof.
  rewrite !calculateLevenshteinDistance_lev, !chars_app, !rev_app_distr.
  by rewrite lev_app_l, lev_app_r, !length_rev, !length_chars.
Qed.

End LevenshteinMore.

(** ** The helpers [min] and [max] *)

Section Helpers.

Lemma foldl_min (l : list nat) : ∀ m,
  let r := foldl (λ minVal v, if v <? minVal then v else minVal) m l in
  (r = m ∨ r ∈ l) ∧ r ≤ m ∧ ∀ v, v ∈ l → r ≤ v.
Proof.
  induction l as [|x l IH]; intros m; simpl.
  - split; [by left|]. split; [done|]. by intros v ?%elem_of_nil.
  - destruct (IH (if x <? m then x else m)) as ([E|I] & L & A).
    + destruct (Nat.ltb_spec x m); (split; [|split]);
        try (rewrite E; (left; done) || (right; left)); try lia;
        intros v [->|Iv]%elem_of_cons; try lia; by apply A.
    + split; [right; by right|]. split.
      * destruct (Nat.ltb_spec x m); lia.
      * intros v [->|Iv]%elem_of_cons; [|by apply A].
        destruct (Nat.ltb_spec x m); lia.
Qed.

(** X4: [min] of no value is 0; otherwise it is one of the values and at
    most each of them. [max] is the greater of its two arguments. *)
Theorem min_max_spec :
  min [] = 0 ∧
  (∀ v0 rest, min (v0 :: rest) ∈ v0 :: rest ∧
              ∀ v, v ∈ v0 :: rest → min (v0 :: rest) ≤ v) ∧
  (∀ a b, max a b = Z.max a b).
Proof.
  split; [done|]. split.
  - intros v0 rest. unfold min.
    destruct (foldl_min rest v0) as ([E|I] & L & A).
    + split; [rewrite E; left|]. intros v [->|Iv]%elem_of_cons; [lia|by apply A].
    + split; [by right|]. intros v [->|Iv]%elem_of_cons; [lia|by apply A].
  - intros a b. unfold max. rewrite Z.gtb_ltb. destruct (Z.ltb_spec b a); lia.
Qed.

End Helpers.

(** ** Jaccard similarity: symmetry and the standard quotient *)

Section JaccardMore.

Lemma size_union_intersection (set1 set2 : gset string) :
  size set1 + size set2 = size (set1 ∪ set2) + size (set1 ∩ set2).
Proof.
  rewrite size_union_alt, (size_difference_alt set2 set1).
  rewrite (intersection_comm_L set2 set1).
  assert (size (set1 ∩ set2) ≤ size set2) by (apply subseteq_size; set_solver).
  lia.
Qed.

(** X5: the similarity does not depend on the order of its arguments, and
    for two non-empty sets it is the size of the intersection over the size
    of the union. *)
Theorem calculateJaccardSimilarity_sym_quotient (set1 set2 : gset string) :
  calculateJaccardSimilarity set1 set2 = calculateJaccardSimilarity set2 set1 ∧
  (set1 ≠ ∅ → set2 ≠ ∅ →
   calculateJaccardSimilarity set1 set2
   = (F64.of_int (Z.of_nat (size (set1 ∩ set2)))
      / F64.of_int (Z.of_nat (size (set1 ∪ set2))))%float).
Proof.
  unfold calculateJaccardSimilarity. rewrite !intersection_count.
  pose proof (size_union_intersection set1 set2) as E.
  split.
  - rewrite (intersection_comm_L set2 set1), (Nat.add_comm (size set2)).
    by rewrite (andb_comm (size set2 =? 0)), (orb_comm (size set2 =? 0)).
  - intros N1 N2.
    destruct (size set1) as [|n1] eqn:E1; [by apply size_zero_empty in E1|].
    destruct (size set2) as [|n2] eqn:E2; [by apply size_zero_empty in E2|].
    cbn [Nat.eqb andb orb].
    replace (S n1 + S n2 - size (set1 ∩ set2)) with (size (set1 ∪ set2)) by lia.
    destruct (size (set1 ∪ set2)) as [|u] eqn:Eu; [|done].
    assert (size (set1 ∩ set2) ≤ S n1)
      by (rewrite <- E1; apply subseteq_size; set_solver).
    lia.
Qed.

End JaccardMore.

(** ** N-grams and word sets: sizes and members *)

Section SetsMore.
Context `{GoText}.

Lemma len_Repeat (s : string) k : len (Repeat s k) = k * len s.
Proof. induction k as [|k IH]; simpl; [done|]. rewrite len_app, IH. lia. Qed.

(** A loop that adds one member per step adds at most that many. *)
Lemma size_foldl_add {A} (f : A → string) (l : list A) : ∀ acc : gset string,
  size (foldl (λ ngrams i, {[f i]} ∪ ngrams) acc l) ≤ size acc + length l.
Proof.
  induction l as [|x l IH]; intros acc; simpl; [lia|].
  etrans; [apply IH|].
  assert (size ({[f x]} ∪ acc) ≤ 1 + size acc); [|lia].
  rewrite size_union_alt, size_singleton.
  assert (size (acc ∖ {[f x]}) ≤ size acc) by (apply subseteq_size; set_solver).
  lia.
Qed.

Lemma createCharNgrams_nonempty text n : createCharNgrams text n ≠ ∅.
Proof.
  destruct (decide (len text < n)) as [S|L].
  - rewrite createCharNgrams_short by done. set_solver.
  - assert (substring 0 n (padded text n) ∈ createCharNgrams text n) as I;
      [|set_solver].
    apply createCharNgrams_long; [lia|]. apply ngram_of_substring. exists 0.
    split; [|done]. unfold padded. rewrite !len_app. lia.
Qed.

(** X6: the n-grams of a text of at least n bytes all have n bytes, and
    there are at most len(text) + n - 1 of them; a shorter text has one. *)
Theorem createCharNgrams_size text n :
  1 ≤ n →
  (n ≤ len text →
   (∀ g, g ∈ createCharNgrams text n → len g = n) ∧
   size (createCharNgrams text n) ≤ len text + n - 1) ∧
  (len text < n → size (createCharNgrams text n) = 1).
Proof.
  intros Hn. split.
  - intros L. split.
    + intros g I. apply createCharNgrams_long in I; [|done]. by destruct I.
    + unfold createCharNgrams.
      replace (len text <? n) with false by (symmetry; apply Nat.ltb_ge; lia).
      etrans; [apply size_foldl_add|].
      rewrite size_empty, length_seq, !len_app, len_Repeat.
      change (len "#") with 1. lia.
  - intros S. rewrite createCharNgrams_short by done. apply size_singleton.
Qed.

Lemma createCharNgrams_size_witness :
  (3 ≤ len "gopher" →
   (∀ g, g ∈ createCharNgrams "gopher" 3 → len g = 3) ∧
   size (createCharNgrams "gopher" 3) ≤ len "gopher" + 3 - 1) ∧
  (len "gopher" < 3 → size (createCharNgrams "gopher" 3) = 1).
Proof. apply (createCharNgrams_size "gopher" 3). lia. Defined.

Lemma elem_of_createWordSet (words : list string) w :
  w ∈ createWordSet words ↔ w ∈ words.
Proof.
  unfold createWordSet.
  rewrite (elem_of_foldl_add (λ word : string, word)). set_solver.
Qed.

Lemma extractWords_nonempty text w : w ∈ extractWords text → w ≠ "".
Proof. unfold extractWords. by intros [N _]%list_elem_of_filter. Qed.

(** The n-grams of a text fit well within the length of the text. *)
Lemma createCharNgrams_size_le text n :
  size (createCharNgrams text n) ≤ len text + n + 1.
Proof.
  unfold createCharNgrams. destruct (len text <? n).
  - rewrite size_singleton. lia.
  - etrans; [apply size_foldl_add|].
    rewrite size_empty, length_seq, !len_app, len_Repeat.
    change (len "#") with 1. lia.
Qed.

(** X7: the word set holds exactly the words of the list, so at most as
    many; and no word that [extractWords] returns is empty. *)
Theorem createWordSet_extractWords (words : list string) (text : string) :
  (∀ w, w ∈ createWordSet words ↔ w ∈ words) ∧
  size (createWordSet words) ≤ length words ∧
  (∀ w, w ∈ extractWords text → w ≠ "").
Proof.
  split; [|split].
  - apply elem_of_createWordSet.
  - unfold createWordSet.
    pose proof (size_foldl_add (λ word : string, word) words ∅) as L.
    by rewrite size_empty in L.
  - apply extractWords_nonempty.
Qed.

End SetsMore.

(** ** The constructor, the filter and the accessors *)

Section EngineMore.
Context `{GoText} `{GoSort} {T : Type} `{Searchable T}.
Implicit Types (req : SearchRequest.t T) (s : ImprovedSearcher T).

(** X8: the constructor indexes the items one for one and in order, and
    every entry holds the features of its item's text: the word set is the
    set of the words, no word is empty, the n-gram sets are not empty, and
    the text length is that of the lowercased text. *)
Theorem NewImprovedSearcher_index (items0 : list T) minSimilarity0 debugMode0 :
  let s := NewImprovedSearcher items0 minSimilarity0 debugMode0 in
  items s = items0 ∧
  SearchIndex.Item <$> searchIndex s = items0 ∧
  (GetItemCount s).1 = length (searchIndex s) ∧
  ∀ idx, idx ∈ searchIndex s →
    SearchIndex.NormalizedText idx
    = normalizeText (GetSearchText (SearchIndex.Item idx)) ∧
    SearchIndex.LowercaseText idx = ToLower (SearchIndex.NormalizedText idx) ∧
    SearchIndex.Words idx = extractWords (SearchIndex.LowercaseText idx) ∧
    (∀ w, w ∈ SearchIndex.WordSet idx ↔ w ∈ SearchIndex.Words idx) ∧
    (∀ w, w ∈ SearchIndex.Words idx → w ≠ "") ∧
    SearchIndex.Trigrams idx ≠ ∅ ∧ SearchIndex.Bigrams idx ≠ ∅ ∧
    SearchIndex.Acronym idx = extractAcronym (GetSearchText (SearchIndex.Item idx)) ∧
    SearchIndex.TextLength idx = Z.of_nat (len (SearchIndex.LowercaseText idx)).
Proof.
  intros s. split; [done|]. split; [|split].
  - unfold s, NewImprovedSearcher. cbn [searchIndex].
    rewrite <- list_fmap_compose. apply list_fmap_id.
  - unfold GetItemCount, gets, s, NewImprovedSearcher. cbn [fst items searchIndex].
    by rewrite length_fmap.
  - intros idx (item & -> & _)%list_elem_of_fmap. cbn.
    repeat split; try done.
    + by intros ?%elem_of_createWordSet.
    + by intros ?%elem_of_createWordSet.
    + apply extractWords_nonempty.
    + apply createCharNgrams_nonempty.
    + apply createCharNgrams_nonempty.
Qed.

Lemma filter_sublist {A} (P : A → bool) (l : list A) : List.filter P l `sublist_of` l.
Proof.
  induction l as [|x l IH]; simpl; [constructor|].
  destruct (P x); by constructor.
Qed.

Lemma candidates_sublist req s : candidates req s `sublist_of` searchIndex s.
Proof.
  rewrite candidates_spec. destruct (SearchRequest.Filters req); [|done].
  apply filter_sublist.
Qed.

(** X9: without a filter [filterItems] returns the whole index; with one
    it returns, in index order, exactly the entries whose item matches; it
    does not touch the searcher. *)
Theorem filterItems_spec (f : Filter T) s :
  filterItems None s = (searchIndex s, s) ∧
  (filterItems (Some f) s).2 = s ∧
  (filterItems (Some f) s).1 `sublist_of` searchIndex s ∧
  ∀ idx, idx ∈ (filterItems (Some f) s).1 ↔
         idx ∈ searchIndex s ∧ Matches f (SearchIndex.Item idx) = true.
Proof.
  rewrite !filterItems_run. cbn [fst snd].
  split; [done|]. split; [done|]. split; [apply filter_sublist|].
  intros idx. by rewrite !list_elem_of_In, filter_In.
Qed.

(** *** The responses of [Search] *)

(** The responses an outcome carries. *)
Definition responses (o : Outcome T) : list (SearchResponse.t T) :=
  match o with
  | Single r => [r]
  | Multi m => MultiSearchResponse.Results m
  end.

(** The ranked candidates that [Search] returns. *)
Definition returned req s : list (scoredResult T) :=
  take (Z.to_nat (clampTopN (SearchRequest.TopN req) (length (ranked req s))))
       (ranked req s).

Lemma clampTopN_bounds t n :
  (0 ≤ clampTopN t n ≤ Z.of_nat n)%Z ∧ (clampTopN t n ≤ 10)%Z.
Proof. rewrite clampTopN_spec. destruct n; lia. Qed.

(** Either the outcome is an error response, or its responses are those
    of the returned candidates, in order. *)
Lemma Search_responses req s :
  (∃ msg, (Search req s).1 = Single (error_response msg)) ∨
  (returned req s ≠ [] ∧
   ∃ msgs : nat → scoredResult T → string,
     responses (Search req s).1
     = imap (λ i r,
         {| SearchResponse.Item := Some (SearchIndex.Item (index r));
            SearchResponse.Similarity := score r;
            SearchResponse.Message := msgs i r;
            SearchResponse.Error := "";
            SearchResponse.Debug := debug_of req s r |}) (returned req s)).
Proof.
  rewrite Search_run. cbv zeta. cbn [fst]. unfold returned.
  pose proof (clampTopN_bounds (SearchRequest.TopN req) (length (ranked req s)))
    as [B1 B2].
  destruct (TrimSpace _ =? "")%string; [left; eauto|].
  destruct (length (candidates req s) =? 0); [left; eauto|].
  destruct (Z.eqb_spec (clampTopN (SearchRequest.TopN req)
                          (length (ranked req s))) 0) as [|N0]; [left; eauto|].
  assert (ranked req s ≠ []) as NR
    by (intros E; rewrite E in B1, N0; simpl in B1, N0; lia).
  destruct (Z.gtb_spec (clampTopN (SearchRequest.TopN req)
                          (length (ranked req s))) 1) as [G|G].
  - right. split.
    + destruct (ranked req s); [done|].
      destruct (Z.to_nat _) eqn:E; [lia|done].
    + by eexists (λ i r, _).
  - right. replace (clampTopN _ _) with 1%Z by lia.
    destruct (ranked req s) as [|best rest]; [done|]. split; [done|].
    by exists (λ _ best, SearchResponse.Message (best_response req s best)).
Qed.

Lemma returned_ranked req s r : r ∈ returned req s → r ∈ ranked req s.
Proof. unfold returned. apply subseteq_take. Qed.

Lemma ranked_candidate req s r :
  r ∈ ranked req s →
  ∃ idx, r = scored req idx ∧ idx ∈ candidates req s ∧
         F64.ge (score r) (minSimilarity s * 0.5) = true.
Proof.
  rewrite ranked_perm. intros (idx & -> & I & P)%elem_of_survivors. by exists idx.
Qed.

(** Every response that carries an item comes from a returned candidate. *)
Lemma response_returned req s resp :
  resp ∈ responses (Search req s).1 → SearchResponse.Item resp ≠ None →
  ∃ r, r ∈ returned req s ∧
       SearchResponse.Item resp = Some (SearchIndex.Item (index r)) ∧
       SearchResponse.Similarity resp = score r ∧
       SearchResponse.Error resp = "" ∧
       SearchResponse.Debug resp = debug_of req s r.
Proof.
  destruct (Search_responses req s) as [[msg E]|(_ & msgs & E)]; rewrite E.
  - by intros ->%list_elem_of_singleton.
  - intros (i & r & -> & L)%elem_of_lookup_imap _. exists r.
    split; [|done]. by eapply list_elem_of_lookup_2.
Qed.

(** X11: a blank query and an empty candidate list each end [Search] with
    their own error, and the outcome carries no item exactly when the query
    is blank, no candidate passes the filter, or none passes the threshold. *)
Theorem Search_errors req s :
  (TrimSpace (SearchRequest.Query req) = "" →
   (Search req s).1 = Single (error_response "Query cannot be empty")) ∧
  (TrimSpace (SearchRequest.Query req) ≠ "" → candidates req s = [] →
   (Search req s).1
   = Single (error_response
       match SearchRequest.Filters req with
       | Some f => "No items found matching filter: " +:+ Description f
       | None => "No items found matching the filter criteria"
       end)) ∧
  (outcome_items (Search req s).1 = [] ↔
   TrimSpace (SearchRequest.Query req) = "" ∨ candidates req s = []
   ∨ survivors req s = []).
Proof.
  pose proof (clampTopN_bounds (SearchRequest.TopN req) (length (ranked req s)))
    as [B1 B2].
  pose proof (clampTopN_spec (SearchRequest.TopN req) (length (ranked req s))) as CS.
  assert (length (ranked req s) = length (survivors req s)) as EL
    by (by rewrite ranked_perm).
  rewrite Search_run. cbv zeta. cbn [fst].
  destruct (String.eqb_spec (TrimSpace (SearchRequest.Query req)) "") as [B|NB].
  { split; [done|]. split; [done|]. split; [by left|done]. }
  split; [done|].
  destruct (candidates req s) as [|c cs] eqn:EC.
  { split; [done|]. split; [by right; left|done]. }
  cbn [length Nat.eqb]. split; [done|].
  destruct (survivors req s) as [|r rs] eqn:ES.
  { simpl in EL. apply length_zero_iff_nil in EL. rewrite EL.
    rewrite clampTopN_spec. simpl. split; [by right; right|done]. }
  destruct (ranked req s) as [|best rest] eqn:ER; [done|].
  destruct (Z.eqb_spec (clampTopN (SearchRequest.TopN req) (length (best :: rest))) 0)
    as [E0|N0]; [cbn [length] in *; lia|].
  destruct (Z.gtb_spec (clampTopN (SearchRequest.TopN req) (length (best :: rest))) 1)
    as [G|G].
  - cbn [outcome_items MultiSearchResponse.Results].
    destruct (Z.to_nat _) eqn:E; [lia|]. simpl.
    split; [done|]. intros [?|[?|?]]; done.
  - simpl. split; [done|]. intros [?|[?|?]]; done.
Qed.

Lemma sublist_elem_of {A} (l k : list A) x : l `sublist_of` k → x ∈ l → x ∈ k.
Proof. intros S I. by eapply sublist_subseteq. Qed.

(** X12: every item that [Search] returns is the item of an index entry;
    on a searcher made by the constructor it is an item of the dataset. *)
Theorem Search_returns_indexed_items req s x :
  x ∈ outcome_items (Search req s).1 →
  (∃ idx, idx ∈ searchIndex s ∧ x = SearchIndex.Item idx) ∧
  (∀ items0 m d, s = NewImprovedSearcher items0 m d → x ∈ items0).
Proof.
  intros (r & I & ->)%outcome_items_ranked.
  apply ranked_candidate in I as (idx & -> & I & _).
  apply (sublist_elem_of _ _ _ (candidates_sublist req s)) in I.
  split; [by exists idx|].
  intros items0 m d ->. unfold NewImprovedSearcher in I. cbn [searchIndex] in I.
  by apply list_elem_of_fmap in I as (item & -> & I).
Qed.

(** X13: the similarity of every returned item is the final score that
    [calculateScore] gives its index entry for the query, and it passes the
    coarse threshold. *)
Theorem Search_similarity_is_score req s resp :
  resp ∈ responses (Search req s).1 → SearchResponse.Item resp ≠ None →
  ∃ idx, idx ∈ candidates req s ∧
         SearchResponse.Item resp = Some (SearchIndex.Item idx) ∧
         SearchResponse.Similarity resp
         = FinalScore (queryScore (SearchRequest.Query req) idx) ∧
         F64.ge (SearchResponse.Similarity resp) (minSimilarity s * 0.5) = true ∧
         SearchResponse.Error resp = "".
Proof.
  intros I N. destruct (response_returned req s resp I N) as (r & Ir & E1 & E2 & E3 & _).
  apply returned_ranked, ranked_candidate in Ir as (idx & -> & Ic & P).
  exists idx. rewrite E1, E2. by repeat split.
Qed.

Lemma leb_refl_num x : F64Facts.num x → (x <=? x)%float = true.
Proof.
  intros N. apply F64Facts.leb_key. repeat split; try done.
  unfold F64Facts.lex_lt. lia.
Qed.

(** X14: the first response has the greatest score of all candidates that
    pass the threshold, and a candidate that passes it without being
    returned scores at most as much as every returned one. *)
Theorem Search_returns_top req s :
  (∀ first r, head (responses (Search req s).1) = Some first →
     SearchResponse.Item first ≠ None → r ∈ survivors req s →
     (score r <=? SearchResponse.Similarity first)%float = true) ∧
  (∀ resp r, resp ∈ responses (Search req s).1 →
     SearchResponse.Item resp ≠ None → r ∈ survivors req s →
     r ∈ returned req s ∨ (score r <=? SearchResponse.Similarity resp)%float = true).
Proof.
  pose proof (ranked_descending req s) as D. split.
  - intros first r Hd N I.
    destruct (Search_responses req s) as [[msg E]|(NE & msgs & E)];
      rewrite E in Hd.
    { simpl in Hd. injection Hd as <-. done. }
    rewrite <- ranked_perm in I. unfold returned in *.
    assert (∀ r, r ∈ ranked req s → F64Facts.num (score r)) as Hnum.
    { intros r' I'. apply (survivors_num req s). by rewrite <- ranked_perm. }
    set (rk := ranked req s) in *. clearbody rk.
    destruct rk as [|r0 rest]; [by rewrite take_nil in NE|].
    destruct (Z.to_nat _) as [|k]; [done|].
    simpl in Hd. injection Hd as <-. cbn [SearchResponse.Similarity].
    apply StronglySorted_inv in D as [_ F]. rewrite Forall_forall in F.
    apply elem_of_cons in I as [->|I]; [|by apply F].
    apply leb_refl_num, Hnum. left.
  - intros resp r I N Ir.
    destruct (response_returned req s resp I N) as (r' & Ir' & _ & -> & _).
    rewrite <- ranked_perm in Ir. unfold returned in *.
    rewrite <- (take_drop (Z.to_nat (clampTopN (SearchRequest.TopN req)
                  (length (ranked req s)))) (ranked req s)) in Ir, D.
    apply elem_of_app in Ir as [Ir|Ir]; [by left|right].
    by apply (StronglySorted_app_1_elem_of _ _ _ _ _ D).
Qed.

(** X15: a response with an item carries debug detail exactly when the
    searcher is in debug mode or the request asks for it; the detail names
    the normalized query, the sizes of the index and of the candidate list,
    and the components whose final score is the similarity. *)
Theorem Search_debug req s resp :
  resp ∈ responses (Search req s).1 → SearchResponse.Item resp ≠ None →
  (SearchResponse.Debug resp = None ↔
   debugMode s || default false (SearchRequest.Debug req) = false) ∧
  ∀ d, SearchResponse.Debug resp = Some d →
    DebugInfo.QueryNormalized d = normalizeText (SearchRequest.Query req) ∧
    DebugInfo.TotalCandidates d = length (searchIndex s) ∧
    DebugInfo.FilteredCandidates d = length (candidates req s) ∧
    ∃ c, DebugInfo.ScoreComponents d = Some c ∧
         FinalScore c = SearchResponse.Similarity resp.
Proof.
  intros I N.
  destruct (response_returned req s resp I N) as (r & Ir & _ & -> & _ & ->).
  apply returned_ranked, ranked_candidate in Ir as (idx & -> & _ & _).
  unfold debug_of.
  replace (match SearchRequest.Debug req with Some d => d | None => false end)
    with (default false (SearchRequest.Debug req))
    by (by destruct (SearchRequest.Debug req)).
  destruct (debugMode s || _).
  - split; [done|]. intros d [= <-]. simpl. repeat split. by eexists.
  - by split.
Qed.

(** X16: a multi-result outcome echoes the query and the filter, holds
    between 2 and 10 results, and reports as TotalFound the number of
    candidates that passed the filter, which is at least the number of
    results. *)
Theorem Search_multi req s m :
  (Search req s).1 = Multi m →
  MultiSearchResponse.Query m = SearchRequest.Query req ∧
  MultiSearchResponse.Filters m = SearchRequest.Filters req ∧
  MultiSearchResponse.TotalFound m = length (candidates req s) ∧
  2 ≤ length (MultiSearchResponse.Results m) ≤ 10 ∧
  length (MultiSearchResponse.Results m) ≤ length (survivors req s) ∧
  length (survivors req s) ≤ MultiSearchResponse.TotalFound m.
Proof.
  pose proof (clampTopN_bounds (SearchRequest.TopN req) (length (ranked req s)))
    as [B1 B2].
  assert (length (ranked req s) = length (survivors req s)) as EL
    by (by rewrite ranked_perm).
  assert (length (survivors req s) ≤ length (candidates req s)) as LS.
  { rewrite survivors_spec, length_fmap. apply filter_length_le. }
  rewrite Search_run. cbv zeta. cbn [fst].
  destruct (TrimSpace _ =? "")%string; [done|].
  destruct (length (candidates req s) =? 0); [done|].
  destruct (clampTopN _ _ =? 0)%Z; [done|].
  destruct (Z.gtb_spec (clampTopN (SearchRequest.TopN req)
                          (length (ranked req s))) 1) as [G|G].
  - intros [= <-]. simpl. rewrite length_imap, length_take_le by lia.
    repeat split; lia.
  - by destruct (ranked req s).
Qed.

(** X10: a setter changes the one field it names and the getter reads the
    value back; a search after [SetMinSimilarity v] keeps the candidates
    that score at least half of [v], and after [SetDebugMode true] every
    response with an item carries debug detail. *)
Theorem setters_then_Search (v : float) req s :
  let s1 := (SetMinSimilarity v s).2 in
  let s2 := (SetDebugMode true s).2 in
  (GetMinSimilarity s1).1 = v ∧
  items s1 = items s ∧ searchIndex s1 = searchIndex s ∧
  debugMode s1 = debugMode s ∧
  items s2 = items s ∧ searchIndex s2 = searchIndex s ∧
  minSimilarity s2 = minSimilarity s ∧
  candidates req s1 = candidates req s ∧
  (∀ idx, idx ∈ candidates req s →
     scored req idx ∈ survivors req s1 ↔
     F64.ge (FinalScore (queryScore (SearchRequest.Query req) idx)) (v * 0.5) = true) ∧
  (∀ resp, resp ∈ responses (Search req s2).1 →
     SearchResponse.Item resp ≠ None → SearchResponse.Debug resp ≠ None).
Proof.
  intros s1 s2. repeat split; try done.
  - by rewrite !candidates_spec.
  - intros (idx' & E & _ & P)%elem_of_survivors.
    apply (f_equal index) in E. simpl in E. by subst.
  - intros P. apply elem_of_survivors. exists idx. repeat split; try done.
    by rewrite candidates_spec in *.
  - intros resp I N.
    by destruct (response_returned req s2 resp I N) as (r & _ & _ & _ & _ & ->).
Qed.

End EngineMore.

(** ** The scorer: words, acronyms and an item's own text *)

Section ScorerMore.
Context `{GoText} {T : Type} `{Searchable T}.

(** The components as [calculateScore] computes them. *)
Definition wordMatch_of (words queryWords : list string) : float :=
  let matchedWords :=
    foldl (λ matchedWords qWord,
      if existsb (λ sWord,
           (sWord =? qWord)%string || (3 <=? len qWord) && HasPrefix sWord qWord)
           words
      then matchedWords + 1 else matchedWords) 0 queryWords in
  let totalWords := length queryWords in
  if 0 <? totalWords then
    let wordMatch :=
      (F64.of_int (Z.of_nat matchedWords) / F64.of_int (Z.of_nat totalWords))%float in
    if matchedWords =? totalWords then F64.Min (wordMatch * 1.2) 1.0 else wordMatch
  else 0%float.

Lemma components_calculateScore (idx : SearchIndex.t T) q ws wset tri bi acr :
  let c := calculateScore idx q ws wset tri bi acr in
  ExactMatch c
  = (if (SearchIndex.LowercaseText idx =? q)%string then 1 else 0)%float ∧
  PrefixMatch c
  = (if HasPrefix (SearchIndex.LowercaseText idx) q then 0.9
     else if (3 <=? len q)%nat
             && HasPrefix (SearchIndex.LowercaseText idx) (substring 0 3 q)
     then 0.5 else 0)%float ∧
  WordMatch c = wordMatch_of (SearchIndex.Words idx) ws ∧
  SubstringMatch c
  = (if Contains (SearchIndex.LowercaseText idx) q
     then 0.7 + 0.3 * (F64.of_int (Z.of_nat (len q))
                       / F64.of_int (SearchIndex.TextLength idx))
     else 0)%float ∧
  TrigramSimilarity c = calculateJaccardSimilarity tri (SearchIndex.Trigrams idx) ∧
  BigramSimilarity c = calculateJaccardSimilarity bi (SearchIndex.Bigrams idx) ∧
  AcronymMatch c
  = (if negb (acr =? "")%string && (acr =? SearchIndex.Acronym idx)%string
     then 0.8 else 0)%float ∧
  LevenshteinSim c
  = (if (max (Z.of_nat (len q)) (SearchIndex.TextLength idx) >? 0)%Z
     then 1.0 - F64.of_int (Z.of_nat
                  (calculateLevenshteinDistance q (SearchIndex.LowercaseText idx)))
                / F64.of_int (max (Z.of_nat (len q)) (SearchIndex.TextLength idx))
     else 0)%float.
Proof. by repeat split. Qed.

Lemma foldl_count {A} (P : A → bool) (l : list A) : ∀ m,
  ((∀ x, x ∈ l → P x = true) →
   foldl (λ n x, if P x then n + 1 else n) m l = m + length l) ∧
  ((∀ x, x ∈ l → P x = false) →
   foldl (λ n x, if P x then n + 1 else n) m l = m).
Proof.
  induction l as [|x l IH]; intros m; simpl; [split; intros; lia|].
  split; intros All.
  - rewrite (All x) by left. destruct (IH (m + 1)) as [IH1 _].
    rewrite IH1; [lia|]. intros y Iy. apply All. by right.
  - rewrite (All x) by left. destruct (IH m) as [_ IH2].
    rewrite IH2; [lia|]. intros y Iy. apply All. by right.
Qed.

Lemma of_int_div_self n :
  0 < n → (Z.of_nat n ≤ MaxInt)%Z →
  (F64.of_int (Z.of_nat n) / F64.of_int (Z.of_nat n))%float = 1%float.
Proof.
  intros P L. destruct (F64Facts.of_int_finite (Z.of_nat n)) as (m & e & F).
  { unfold MaxInt in L. lia. }
  exact (F64Facts.div_self _ _ _ _ F).
Qed.

Lemma of_int_zero_div n :
  0 < n → (Z.of_nat n ≤ MaxInt)%Z →
  (F64.of_int (Z.of_nat 0) / F64.of_int (Z.of_nat n))%float = 0%float.
Proof.
  intros P L. destruct (F64Facts.of_int_finite (Z.of_nat n)) as (m & e & F).
  { unfold MaxInt in L. lia. }
  exact (F64Facts.zero_div _ _ _ F).
Qed.

Lemma wordMatch_of_all words queryWords :
  queryWords ≠ [] → (Z.of_nat (length queryWords) ≤ MaxInt)%Z →
  (∀ qWord, qWord ∈ queryWords →
     existsb (λ sWord, (sWord =? qWord)%string
                       || (3 <=? len qWord) && HasPrefix sWord qWord) words = true) →
  wordMatch_of words queryWords = 1%float.
Proof.
  intros NE L A. unfold wordMatch_of.
  destruct (foldl_count (λ qWord, existsb (λ sWord, (sWord =? qWord)%string
    || (3 <=? len qWord) && HasPrefix sWord qWord) words) queryWords 0) as [E _].
  rewrite E by done. clear E.
  assert (0 < length queryWords) as P by (destruct queryWords; [done|simpl; lia]).
  replace (0 <? length queryWords) with true by (symmetry; by apply Nat.ltb_lt).
  rewrite Nat.add_0_l, Nat.eqb_refl, of_int_div_self by done. reflexivity.
Qed.

Lemma wordMatch_of_none words queryWords :
  (Z.of_nat (length queryWords) ≤ MaxInt)%Z →
  (∀ qWord, qWord ∈ queryWords →
     existsb (λ sWord, (sWord =? qWord)%string
                       || (3 <=? len qWord) && HasPrefix sWord qWord) words = false) →
  wordMatch_of words queryWords = 0%float.
Proof.
  intros L A. unfold wordMatch_of.
  destruct (foldl_count (λ qWord, existsb (λ sWord, (sWord =? qWord)%string
    || (3 <=? len qWord) && HasPrefix sWord qWord) words) queryWords 0) as [_ E].
  rewrite E by done. clear E.
  destruct (Nat.ltb_spec 0 (length queryWords)) as [P|]; [|done].
  replace (0 =? length queryWords) with false by (symmetry; apply Nat.eqb_neq; lia).
  by apply of_int_zero_div.
Qed.

(** X18: the word component is 1.0 when every query word equals an item
    word or, from 3 bytes on, starts one; it is 0.0 when no query word does,
    and when the query has no word. *)
Theorem WordMatch_all_or_none (idx : SearchIndex.t T) q ws wset tri bi acr :
  (Z.of_nat (length ws) ≤ MaxInt)%Z →
  let c := calculateScore idx q ws wset tri bi acr in
  let matches qWord sWord := sWord = qWord ∨ 3 ≤ len qWord ∧ HasPrefix sWord qWord = true in
  (ws ≠ [] →
   (∀ qWord, qWord ∈ ws → ∃ sWord, sWord ∈ SearchIndex.Words idx ∧ matches qWord sWord) →
   WordMatch c = 1%float) ∧
  ((∀ qWord sWord, qWord ∈ ws → sWord ∈ SearchIndex.Words idx → ¬ matches qWord sWord) →
   WordMatch c = 0%float).
Proof.
  intros L c matches. subst c.
  destruct (components_calculateScore idx q ws wset tri bi acr)
    as (_ & _ & -> & _).
  split.
  - intros NE A. apply wordMatch_of_all; [done..|].
    intros qWord I. apply existsb_exists.
    destruct (A qWord I) as (sWord & Is & M). exists sWord.
    split; [by apply list_elem_of_In|].
    destruct M as [->|[L3 P]].
    + by rewrite String.eqb_refl.
    + rewrite P. replace (3 <=? len qWord) with true
        by (symmetry; by apply Nat.leb_le). by rewrite orb_true_r.
  - intros A. apply wordMatch_of_none; [done|].
    intros qWord I. destruct (existsb _ _) eqn:E; [|done].
    apply existsb_exists in E as (sWord & Is%list_elem_of_In & M).
    destruct (A qWord sWord I Is).
    apply orb_true_iff in M as [M%String.eqb_eq|[L3%Nat.leb_le P]%andb_true_iff];
      [by left|by right].
Qed.

Lemma foldl_unchanged {A B} (f : B → A → B) (l : list A) (acc : B) :
  (∀ b x, x ∈ l → f b x = b) → foldl f acc l = acc.
Proof.
  induction l as [|x l IH]; intros E; simpl; [done|].
  rewrite (E acc x) by left. apply IH. intros b y Iy. apply E. by right.
Qed.

(** X17: a query in which no word starts with an upper-case byte has the
    empty acronym, and its acronym component is 0 against every item. *)
Theorem no_capital_no_acronym (query : string) :
  ToLower (string_of_runes []) = "" →
  (∀ word c rest, word ∈ Fields query → word = String c rest →
     IsUpper (rune_of_byte c) = false) →
  extractAcronym query = "" ∧
  ∀ idx : SearchIndex.t T, AcronymMatch (queryScore query idx) = 0%float.
Proof.
  intros L U. assert (extractAcronym query = "") as E.
  { unfold extractAcronym. rewrite foldl_unchanged; [done|].
    intros acronym word I. destruct (_ || _); [done|].
    destruct word as [|c rest]; [done|]. by rewrite (U _ c rest I). }
  split; [done|]. intros idx. unfold queryScore.
  destruct (components_calculateScore idx
    (ToLower (normalizeText query))
    (extractWords (ToLower (normalizeText query)))
    (createWordSet (extractWords (ToLower (normalizeText query))))
    (createCharNgrams (ToLower (normalizeText query)) 3)
    (createCharNgrams (ToLower (normalizeText query)) 2)
    (extractAcronym query)) as (_ & _ & _ & _ & _ & _ & -> & _).
  by rewrite E.
Qed.

Lemma prefix_refl (s : string) : String.prefix s s = true.
Proof.
  induction s as [|c s IH]; [done|]. simpl. by destruct (ascii_dec c c).
Qed.

Lemma Contains_refl (s : string) : Contains s s = true.
Proof.
  destruct s as [|c s]; [done|].
  change (Contains (String c s) (String c s))
    with (String.prefix (String c s) (String c s) || Contains s (String c s)).
  by rewrite prefix_refl.
Qed.

(** The score of a candidate whose index entry carries the features of the
    query itself, for a query of more than 10 bytes with a word. *)
Lemma own_features_score_one (idx : SearchIndex.t T) q ws wset tri bi acr :
  SearchIndex.LowercaseText idx = q → SearchIndex.Words idx = ws →
  SearchIndex.Trigrams idx = tri → SearchIndex.Bigrams idx = bi →
  SearchIndex.Acronym idx = acr →
  SearchIndex.TextLength idx = Z.of_nat (len q) →
  10 < len q → ws ≠ [] →
  (Z.of_nat (len q) ≤ MaxInt)%Z → (Z.of_nat (length ws) ≤ MaxInt)%Z →
  (Z.of_nat (size tri) ≤ MaxInt)%Z → (Z.of_nat (size bi) ≤ MaxInt)%Z →
  FinalScore (calculateScore idx q ws wset tri bi acr) = 1%float.
Proof.
  intros Eq Ew Et Eb Ea El Lq Nw Bq Bw Bt Bb.
  rewrite FinalScore_calculateScore. unfold final_of, with_bonuses.
  destruct (components_calculateScore idx q ws wset tri bi acr)
    as (-> & -> & -> & -> & -> & -> & -> & ->).
  rewrite Eq, Ew, Et, Eb, Ea, El.
  rewrite String.eqb_refl. unfold HasPrefix. rewrite prefix_refl, Contains_refl.
  rewrite wordMatch_of_all; [|done..|].
  2: { intros w I. apply existsb_exists. exists w.
       split; [by apply list_elem_of_In|]. by rewrite String.eqb_refl. }
  rewrite !jaccard_self by done.
  rewrite of_int_div_self by (done || lia).
  assert (calculateLevenshteinDistance q q = 0) as ->.
  { unfold calculateLevenshteinDistance. by rewrite String.eqb_refl. }
  assert (max (Z.of_nat (len q)) (Z.of_nat (len q)) = Z.of_nat (len q)) as ->.
  { unfold max. by destruct (_ >? _)%Z. }
  replace (Z.of_nat (len q) >? 0)%Z with true by (symmetry; apply Z.gtb_lt; lia).
  rewrite of_int_zero_div by (done || lia).
  replace (len q <=? 10) with false by (symmetry; apply Nat.leb_gt; lia).
  destruct (acr =? "")%string; rewrite ?String.eqb_refl; by vm_compute.
Qed.

(** X19: an indexed item with at least one word scores exactly 1.0 against
    a query equal to its own text, whatever the length of the text. *)
Theorem own_text_with_words_scores_one (items0 : list T) minSimilarity0 debugMode0 idx :
  idx ∈ searchIndex (NewImprovedSearcher items0 minSimilarity0 debugMode0) →
  SearchIndex.Words idx ≠ [] →
  (Z.of_nat (len (SearchIndex.LowercaseText idx)) + 4 ≤ MaxInt)%Z →
  (Z.of_nat (length (SearchIndex.Words idx)) ≤ MaxInt)%Z →
  FinalScore (queryScore (GetSearchText (SearchIndex.Item idx)) idx) = 1%float.
Proof.
  intros (item & -> & _)%list_elem_of_fmap Nw Bq Bw. unfold queryScore.
  cbn [SearchIndex.Item SearchIndex.LowercaseText SearchIndex.Words] in *.
  set (q := ToLower (normalizeText (GetSearchText item))) in *.
  destruct (decide (len q ≤ 10)) as [S|L].
  { by apply exact_short_scores_one. }
  pose proof (createCharNgrams_size_le q 3). pose proof (createCharNgrams_size_le q 2).
  apply own_features_score_one; try done; lia.
Qed.

End ScorerMore.
(** ** Runs of the further properties on the ASCII instance *)

Section MoreRuns.
Local Existing Instance AsciiText.ascii_text.
Local Existing Instance InsertionSort.insertion_sort.

(** The single response of a search that returns one. *)
Definition single_response (req : SearchRequest.t string) : SearchResponse.t string :=
  match (Search req books).1 with
  | Single r => r
  | Multi _ => error_response ""
  end.

(** The multi-response of a search that returns several. *)
Definition multi_response (req : SearchRequest.t string) : MultiSearchResponse.t string :=
  match (Search req books).1 with
  | Multi m => m
  | Single _ =>
      {| MultiSearchResponse.Results := []; MultiSearchResponse.Query := "";
         MultiSearchResponse.TotalFound := 0; MultiSearchResponse.Filters := None;
         MultiSearchResponse.Message := "" |}
  end.

Definition debug_request (query : string) : SearchRequest.t string :=
  {| SearchRequest.Query := query; SearchRequest.Filters := None;
     SearchRequest.TopN := None; SearchRequest.Debug := Some true |}.

Lemma Search_returns_indexed_items_witness :
  let req := request "the" None (Some 5%Z) in
  let x := "The Lord of the Rings" in
  (∃ idx, idx ∈ searchIndex books ∧ x = SearchIndex.Item idx) ∧
  (∀ items0 m d, books = NewImprovedSearcher items0 m d → x ∈ items0).
Proof.
  apply (Search_returns_indexed_items (request "the" None (Some 5%Z)) books
           "The Lord of the Rings").
  vm_compute. by left.
Defined.

Lemma Search_similarity_is_score_witness :
  let req := request "gopher" None None in
  let resp := single_response req in
  ∃ idx, idx ∈ candidates req books ∧
         SearchResponse.Item resp = Some (SearchIndex.Item idx) ∧
         SearchResponse.Similarity resp
         = FinalScore (queryScore (SearchRequest.Query req) idx) ∧
         F64.ge (SearchResponse.Similarity resp) (minSimilarity books * 0.5) = true ∧
         SearchResponse.Error resp = "".
Proof.
  apply (Search_similarity_is_score (request "gopher" None None) books
           (single_response (request "gopher" None None))).
  - vm_compute. by left.
  - by vm_compute.
Defined.

Lemma Search_debug_witness :
  let req := debug_request "gopher" in
  let resp := single_response req in
  (SearchResponse.Debug resp = None ↔
   debugMode books || default false (SearchRequest.Debug req) = false) ∧
  ∀ d, SearchResponse.Debug resp = Some d →
    DebugInfo.QueryNormalized d = normalizeText (SearchRequest.Query req) ∧
    DebugInfo.TotalCandidates d = length (searchIndex books) ∧
    DebugInfo.FilteredCandidates d = length (candidates req books) ∧
    ∃ c, DebugInfo.ScoreComponents d = Some c ∧
         FinalScore c = SearchResponse.Similarity resp.
Proof.
  apply (Search_debug (debug_request "gopher") books
           (single_response (debug_request "gopher"))).
  - vm_compute. by left.
  - by vm_compute.
Defined.

Lemma Search_multi_witness :
  let req := request "the" None (Some 5%Z) in
  let m := multi_response req in
  MultiSearchResponse.Query m = SearchRequest.Query req ∧
  MultiSearchResponse.Filters m = SearchRequest.Filters req ∧
  MultiSearchResponse.TotalFound m = length (candidates req books) ∧
  2 ≤ length (MultiSearchResponse.Results m) ≤ 10 ∧
  length (MultiSearchResponse.Results m) ≤ length (survivors req books) ∧
  length (survivors req books) ≤ MultiSearchResponse.TotalFound m.
Proof.
  apply (Search_multi (request "the" None (Some 5%Z)) books
           (multi_response (request "the" None (Some 5%Z)))).
  by vm_compute.
Defined.

Definition go_entry : SearchIndex.t string :=
  {| SearchIndex.Item := "The Go Programming Language";
     SearchIndex.NormalizedText := "The Go Programming Language";
     SearchIndex.LowercaseText := "the go programming language";
     SearchIndex.Words := ["the"; "go"; "programming"; "language"];
     SearchIndex.WordSet := createWordSet ["the"; "go"; "programming"; "language"];
     SearchIndex.Trigrams := createCharNgrams "the go programming language" 3;
     SearchIndex.Bigrams := createCharNgrams "the go programming language" 2;
     SearchIndex.FirstLetters := "tgpl"; SearchIndex.Acronym := "gpl";
     SearchIndex.TextLength := 27 |}.

Lemma WordMatch_all_or_none_witness :
  WordMatch (calculateScore go_entry "" ["prog"; "go"] ∅ ∅ ∅ "") = 1%float.
Proof.
  destruct (WordMatch_all_or_none go_entry "" ["prog"; "go"] ∅ ∅ ∅ "") as [All _];
    [by vm_compute|].
  apply All; [done|].
  intros qWord [->|[->|[]%elem_of_nil]%elem_of_cons]%elem_of_cons.
  - exists "programming". split; [by repeat constructor|].
    right. split; [vm_compute; lia | reflexivity].
  - exists "go". split; [by repeat constructor | by left].
Defined.

Lemma no_capital_no_acronym_witness :
  extractAcronym "lotr" = "" ∧
  ∀ idx : SearchIndex.t string, AcronymMatch (queryScore "lotr" idx) = 0%float.
Proof.
  apply (no_capital_no_acronym (T := string) "lotr"); [reflexivity|].
  intros word c rest I ->. apply list_elem_of_In in I. vm_compute in I.
  by destruct I as [[= <- <-]|[]].
Defined.

Lemma own_text_with_words_scores_one_witness :
  FinalScore (queryScore "The Go Programming Language" go_entry) = 1%float.
Proof.
  change (FinalScore (queryScore (GetSearchText (SearchIndex.Item go_entry)) go_entry)
          = 1%float).
  apply (own_text_with_words_scores_one ["The Go Programming Language"] 0.3%float false
           go_entry).
  - vm_compute. by left.
  - done.
  - by vm_compute.
  - by vm_compute.
Defined.

End MoreRuns.
